(** * Spotify playlist uploader: matching, scoring and reconciliation

    A shallow embedding of [spotify_upload_playlist_from_txt.py]: the text
    normalizer, the candidate scorer, the fallback search and the playlist
    synchronisation of [main], with the properties stated about them.

    Strings are sequences of 8-bit characters, read as the code points
    0..255.  On that range [str.lower], [str.isspace] and the regular
    expression class [\s] are given by the tables below. *)

From Stdlib Require Import ZArith Ascii String Bool Lia.
From stdpp Require Import base list strings gmap sets.

Local Open Scope Z_scope.

(** ** Python string primitives *)

Module PyStr.

Definition code (c : ascii) : N := N_of_ascii c.

(** [str.isspace] / [\s] on one character: TAB LF VT FF CR, FS GS RS US,
    SPACE, NEL (0x85) and NBSP (0xA0). *)
Definition is_space (c : ascii) : bool :=
  let n := code c in
  ((9 <=? n) && (n <=? 13) || (28 <=? n) && (n <=? 32)
   || (n =? 133) || (n =? 160))%N.

(** [str.lower] on one character: A-Z, and the Latin-1 capitals
    0xC0-0xDE except the multiplication sign 0xD7. *)
Definition lower_char (c : ascii) : ascii :=
  let n := code c in
  if ((65 <=? n) && (n <=? 90)
      || (192 <=? n) && (n <=? 222) && negb (n =? 215))%N
  then ascii_of_N (n + 32) else c.

Fixpoint lower (s : string) : string :=
  match s with
  | EmptyString => EmptyString
  | String c s' => String (lower_char c) (lower s')
  end.

(** [s.replace(c, by)] for a one-character needle. *)
Fixpoint replace_char (c : ascii) (by_ : string) (s : string) : string :=
  match s with
  | EmptyString => EmptyString
  | String x s' =>
      if Ascii.eqb x c then by_ +:+ replace_char c by_ s'
      else String x (replace_char c by_ s')
  end.

(** [re.sub(r"[...]", "", s)] for a character class given as a test. *)
Fixpoint remove_class (cls : ascii -> bool) (s : string) : string :=
  match s with
  | EmptyString => EmptyString
  | String x s' =>
      if cls x then remove_class cls s' else String x (remove_class cls s')
  end.

(** [re.sub(r"\s+", " ", s)]: every maximal run of whitespace becomes one
    space.  [in_run] tells that the previous character was whitespace. *)
Fixpoint collapse_from (in_run : bool) (s : string) : string :=
  match s with
  | EmptyString => EmptyString
  | String x s' =>
      if is_space x
      then (if in_run then collapse_from true s'
            else String " " (collapse_from true s'))
      else String x (collapse_from false s')
  end.

Definition collapse_ws (s : string) : string := collapse_from false s.

Fixpoint lstrip (s : string) : string :=
  match s with
  | EmptyString => EmptyString
  | String x s' => if is_space x then lstrip s' else s
  end.

Definition is_empty (s : string) : bool :=
  match s with EmptyString => true | _ => false end.

Fixpoint rstrip (s : string) : string :=
  match s with
  | EmptyString => EmptyString
  | String x s' =>
      let r := rstrip s' in
      if is_space x && is_empty r then EmptyString else String x r
  end.

(** [s.strip()] *)
Definition strip (s : string) : string := rstrip (lstrip s).

(** [s.startswith(p)] *)
Fixpoint startswith (p s : string) : bool :=
  match p, s with
  | EmptyString, _ => true
  | String _ _, EmptyString => false
  | String a p', String b s' => Ascii.eqb a b && startswith p' s'
  end.

(** [needle in hay] *)
Fixpoint contains (needle hay : string) : bool :=
  startswith needle hay ||
  match hay with
  | EmptyString => false
  | String _ hay' => contains needle hay'
  end.

(** [s[n:]] *)
Fixpoint drop_chars (n : nat) (s : string) : string :=
  match n, s with
  | O, _ => s
  | S _, EmptyString => EmptyString
  | S n', String _ s' => drop_chars n' s'
  end.

Fixpoint all_chars (p : ascii -> bool) (s : string) : bool :=
  match s with
  | EmptyString => true
  | String x s' => p x && all_chars p s'
  end.

Definition newline : ascii := "010"%char.

(** What [.*$] leaves of the text after a match of [live]: [.] stops at a
    line feed and [$] holds at the end of the text or before a final line
    feed.  [Some rest] is the unconsumed remainder. *)
Fixpoint dot_star_end (s : string) : option string :=
  match s with
  | EmptyString => Some EmptyString
  | String x s' =>
      if Ascii.eqb x newline
      then (if is_empty s' then Some s else None)
      else dot_star_end s'
  end.

(** A match of [\s*-\s*live.*$] starting at the head of [s].  Greedy [\s*]
    is the only choice that can succeed, since neither [-] nor [l] is
    whitespace. *)
Definition match_live_suffix (s : string) : option string :=
  match lstrip s with
  | String "-" s1 =>
      let s2 := lstrip s1 in
      if startswith "live" s2 then dot_star_end (drop_chars 4 s2) else None
  | _ => None
  end.

(** [re.sub(r"\s*-\s*live.*$", "", s)]: the leftmost match is removed; the
    scan goes on in what the match left, where the pattern, which needs a
    [-], is tried again. *)
Fixpoint sub_live_suffix (s : string) : string :=
  match s with
  | EmptyString => EmptyString
  | String x s' =>
      match match_live_suffix s with
      | Some rest => rest
      | None => String x (sub_live_suffix s')
      end
  end.

(** *** Predicates on characters and texts *)

(** [lower] leaves the character alone. *)
Definition lowered (c : ascii) : bool := Ascii.eqb (lower_char c) c.

(** The character is not [c]. *)
Definition is_not (c x : ascii) : bool := negb (Ascii.eqb x c).

(** Every whitespace character is a space that follows a non-space. *)
Fixpoint single_spaced (in_run : bool) (s : string) : bool :=
  match s with
  | EmptyString => true
  | String x s' =>
      if is_space x
      then Ascii.eqb x " " && negb in_run && single_spaced true s'
      else single_spaced false s'
  end.

(** Nothing to strip on the left: the text is empty or starts with a
    non-space. *)
Definition no_leading_space (s : string) : bool :=
  match s with
  | EmptyString => true
  | String x _ => negb (is_space x)
  end.

End PyStr.

(** ** Normalizer *)

(** The class [[./\-]] of line 68. *)
Definition is_punct (c : ascii) : bool :=
  Ascii.eqb c "." || Ascii.eqb c "/" || Ascii.eqb c "-".

(** Lines 63-70. *)
Definition normalize (text : string) : string :=
  if PyStr.is_empty text then ""
  else
    let text := PyStr.lower text in
    let text := PyStr.replace_char "&" "and" text in
    let text := PyStr.remove_class is_punct text in
    let text := PyStr.collapse_ws text in
    PyStr.strip text.

(** Lines 72-73. *)
Definition normalize_playlist_name (name : string) : string :=
  PyStr.collapse_ws (PyStr.lower (PyStr.strip name)).

(** Lines 75-78. *)
Definition normalize_track_for_matching (name : string) : string :=
  let name := normalize name in
  PyStr.sub_live_suffix name.

(** The characters [normalize] keeps. *)
Definition not_punct (c : ascii) : bool := negb (is_punct c).

(** The text [normalize] works on after its emptiness test. *)
Definition normalize_steps (text : string) : string :=
  PyStr.strip
    (PyStr.collapse_ws
       (PyStr.remove_class is_punct
          (PyStr.replace_char "&" "and" (PyStr.lower text)))).

(** ** Data model *)

(** A wanted entry is the dict built by the parser: ["track"] is always
    present, ["artist"] and ["album"] may be missing keys. *)
Record Entry := {
  track : string;
  artist : option string;
  album : option string
}.

(** One item of a search response: [uri], [name], the names of [artists]
    and [album.name]. *)
Record Candidate := {
  uri : string;
  name : string;
  artists : list string;
  album_name : string
}.

(** [d.get(key, "")] *)
Definition get_or_empty (field : option string) : string := default "" field.

(** Truth value of a string / of [d.get(key)]. *)
Definition truthy (s : string) : bool := negb (PyStr.is_empty s).
Definition truthy_opt (field : option string) : bool :=
  match field with Some s => truthy s | None => false end.

(** ** Candidate scorer *)

(** Lines 80-90.  The result is used as a truth value. *)
Definition is_exact_track_artist_match (entry : Entry) (cand : Candidate) : bool :=
  let entry_track := normalize_track_for_matching (track entry) in
  let track_name := normalize_track_for_matching (name cand) in
  if negb (String.eqb entry_track track_name) then false
  else
    let entry_artist := normalize (get_or_empty (artist entry)) in
    let track_artists := normalize <$> artists cand in
    truthy entry_artist && bool_decide (entry_artist ∈ track_artists).

(** Lines 92-108. *)
Definition clean_album_name (album artist : string) : string :=
  if negb (truthy album) || negb (truthy artist) then album
  else
    let album_norm := normalize album in
    let artist_norm := normalize artist in
    let prefix := artist_norm +:+ " - " in
    if PyStr.startswith prefix album_norm
    then PyStr.strip (PyStr.drop_chars (String.length prefix) album)
    else album.

(** The [for a in track_artists] loop of lines 145-154: [Some d] when the
    loop leaves through a [break] after adding [d], [None] when it runs to
    the end with [artist_matched] still false. *)
Fixpoint artist_loop (entry_artist : string) (track_artists : list string)
  : option Z :=
  match track_artists with
  | [] => None
  | a :: rest =>
      if String.eqb entry_artist a then Some 40
      else if PyStr.contains entry_artist a || PyStr.contains a entry_artist
           then Some 25
           else artist_loop entry_artist rest
  end.

(** What the artist block, lines 142-157, adds to [score]. *)
Definition artist_term (entry_artist : string) (track_artists : list string)
  : Z :=
  if truthy entry_artist then
    match artist_loop entry_artist track_artists with
    | Some d => d
    | None => -10
    end
  else 0.

Section Scorer.

(** [int(similarity(a, b) * 30)]: the ratio of difflib's SequenceMatcher is
    floating point and is left as a parameter. *)
Variable similarity_points : string -> string -> Z.

(** Lines 116-171. *)
Definition score_candidate (entry : Entry) (cand : Candidate) : Z :=
  let score := 0 in
  let entry_track := normalize_track_for_matching (track entry) in
  let entry_artist := normalize (get_or_empty (artist entry)) in
  let entry_album :=
    normalize (clean_album_name (get_or_empty (album entry))
                                (get_or_empty (artist entry))) in
  let track_name := normalize_track_for_matching (name cand) in
  let track_artists := normalize <$> artists cand in
  let album_name_ := normalize (album_name cand) in
  (* Track name (strongest signal) *)
  let score :=
    if String.eqb track_name entry_track then score + 40
    else score + similarity_points track_name entry_track in
  (* Small bias if Spotify track has 'live' but entry does not *)
  let score :=
    if PyStr.contains "live" (normalize (name cand))
       && negb (PyStr.contains "live" (normalize (track entry)))
    then score + 5 else score in
  (* Artist match *)
  let score := score + artist_term entry_artist track_artists in
  (* Album match *)
  let score :=
    if truthy entry_album && PyStr.contains entry_album album_name_
    then score + 20 else score in
  (* Live album compatibility *)
  let score :=
    if PyStr.contains "live" (normalize (get_or_empty (album entry)))
       && PyStr.contains "live" (normalize (album_name cand))
    then score + 10 else score in
  score.

(** *** Candidate loop of the match selector (lines 298-326) *)

(** How the [for track in candidates] loop ends: by [return track["uri"]],
    or by running out of candidates with the loop variables as given. *)
Inductive LoopExit :=
| Returned (u : string)
| Exhausted (best_track : option Candidate) (best_score : Z).

(** The second component lists the candidates that were scored. *)
Fixpoint candidate_loop (entry : Entry) (candidates : list Candidate)
    (best_track : option Candidate) (best_score : Z)
  : LoopExit * list Candidate :=
  match candidates with
  | [] => (Exhausted best_track best_score, [])
  | cand :: rest =>
      let score := score_candidate entry cand in
      if 85 <=? score then (Returned (uri cand), [cand])
      else
        let '(best_track, best_score) :=
          if best_score <? score then (Some cand, score)
          else (best_track, best_score) in
        let '(exit, scored) := candidate_loop entry rest best_track best_score in
        (exit, cand :: scored)
  end.

(** What follows the loop: the two acceptance tests on [best_track]. *)
Definition accept_best (entry : Entry) (best_track : option Candidate)
    (best_score : Z) : option string :=
  match best_track with
  | Some best =>
      if 55 <=? best_score then Some (uri best)
      else if is_exact_track_artist_match entry best && (50 <=? best_score)
           then Some (uri best)
           else None
  | None => None
  end.

(** The body of the query loop once [candidates] is non-empty. *)
Definition select_candidate (entry : Entry) (candidates : list Candidate)
    (best_track : option Candidate) (best_score : Z)
  : option string * list Candidate :=
  match candidate_loop entry candidates best_track best_score with
  | (Returned u, scored) => (Some u, scored)
  | (Exhausted best_track best_score, scored) =>
      (accept_best entry best_track best_score, scored)
  end.

End Scorer.

(** ** Parsing (lines 180-248) *)

(** [s.split(sep)] for a one-character separator. *)
Fixpoint split_char (sep : ascii) (s : string) : list string :=
  match s with
  | EmptyString => [EmptyString]
  | String c s' =>
      if Ascii.eqb c sep then EmptyString :: split_char sep s'
      else
        match split_char sep s' with
        | piece :: pieces => String c piece :: pieces
        | [] => [String c EmptyString]
        end
  end.

(** [s.split(sep, 1)] on a text that holds the separator: what comes before
    its first occurrence and what comes after; [None] without one. *)
Fixpoint split_once (sep : ascii) (s : string) : option (string * string) :=
  match s with
  | EmptyString => None
  | String c s' =>
      if Ascii.eqb c sep then Some (EmptyString, s')
      else
        match split_once sep s' with
        | Some (before, after) => Some (String c before, after)
        | None => None
        end
  end.

(** One segment of a pipe-separated line, lines 211-214. *)
Definition pipe_segment (parts : gmap string string) (segment : string)
  : gmap string string :=
  match split_once "=" segment with
  | None => parts
  | Some (key, value) =>
      <[PyStr.lower (PyStr.strip key) := PyStr.strip value]> parts
  end.

(** Lines 209-214: the keys and values of a pipe-separated line. *)
Definition pipe_parts (line : string) : gmap string string :=
  let segments := PyStr.strip <$> split_char "|" line in
  foldl pipe_segment ∅ segments.

(** The keys of [KEY_VALUE_PATTERN], in the order of its alternatives. *)
Definition KEYS : list string := ["track"; "artist"; "album"].

(** A lower-case keyword at the head of [s], matched without regard to
    case; the result is what follows it. *)
Fixpoint match_keyword (keyword s : string) : option string :=
  match keyword, s with
  | EmptyString, _ => Some s
  | String _ _, EmptyString => None
  | String a keyword', String b s' =>
      if Ascii.eqb (PyStr.lower_char b) a then match_keyword keyword' s'
      else None
  end.

(** [(track|artist|album):] at the head of [s]: the key and what follows
    the colon. *)
Fixpoint key_among (keys : list string) (s : string)
  : option (string * string) :=
  match keys with
  | [] => None
  | key :: rest =>
      match match_keyword (key +:+ ":") s with
      | Some after => Some (key, after)
      | None => key_among rest s
      end
  end.

Definition key_at (s : string) : option (string * string) := key_among KEYS s.

(** [$] without the MULTILINE flag: the end of the text, or the place
    before a line feed that ends it. *)
Definition at_end (s : string) : bool :=
  PyStr.is_empty s || String.eqb s (String PyStr.newline EmptyString).

(** The lookahead [(?=\s+(?:track|artist|album):|$)] at the head of [s].
    No key starts with whitespace, so [\s+] has to take the whole run. *)
Definition lookahead (s : string) : bool :=
  negb (PyStr.no_leading_space s) && bool_decide (is_Some (key_at (PyStr.lstrip s)))
  || at_end s.

(** [[^:]*] followed by the lookahead, greedy with backtracking: the
    longest run of characters other than a colon after which the lookahead
    holds, with the text left after it. *)
Fixpoint value_from (s : string) : option (string * string) :=
  match s with
  | EmptyString => if lookahead s then Some (EmptyString, s) else None
  | String c s' =>
      if Ascii.eqb c ":" then
        (if lookahead s then Some (EmptyString, s) else None)
      else
        match value_from s' with
        | Some (value, rest) => Some (String c value, rest)
        | None => if lookahead s then Some (EmptyString, s) else None
        end
  end.

(** [([^:]+)] followed by the lookahead: as above, of one character at
    least. *)
Definition value_match (s : string) : option (string * string) :=
  match value_from s with
  | Some (String c value, rest) => Some (String c value, rest)
  | _ => None
  end.

(** A match of [KEY_VALUE_PATTERN] at the head of [s]: groups 1 (in lower
    case) and 2, and the text left after the match. *)
Definition match_at (s : string) : option (string * string * string) :=
  match key_at s with
  | Some (key, after) =>
      match value_match after with
      | Some (value, rest) => Some (key, value, rest)
      | None => None
      end
  | None => None
  end.

(** [KEY_VALUE_PATTERN.finditer]: the matches from left to right, each
    search starting where the last match ended.  [skip] counts the
    characters of the last match that are still to be passed. *)
Fixpoint finditer_from (skip : nat) (s : string) : list (string * string) :=
  match s with
  | EmptyString => []
  | String _ s' =>
      match skip with
      | S skip' => finditer_from skip' s'
      | O =>
          match match_at s with
          | Some (key, value, rest) =>
              (key, value)
                :: finditer_from (String.length s - String.length rest - 1) s'
          | None => finditer_from 0 s'
          end
      end
  end.

Definition finditer (s : string) : list (string * string) := finditer_from 0 s.

(** Lines 218-221: the keys and values of a line of [key:value] fields. *)
Definition regex_parts (line : string) : gmap string string :=
  foldl (fun parts m => <[m.1 := PyStr.strip m.2]> parts) ∅ (finditer line).

(** Lines 205-221. *)
Definition parse_line (line : string) : gmap string string :=
  if PyStr.contains "|" line && PyStr.contains "=" line
  then pipe_parts line
  else regex_parts line.

(** The loop variables of [parse_txt_playlist]. *)
Record ParseState := {
  ps_entries : list (gmap string string);
  ps_seen_keys : gset (string * string * string);
  ps_skipped_lines : nat
}.

(** Lines 233-237. *)
Definition dedup_key (parts : gmap string string) : string * string * string :=
  (PyStr.lower (default "" (parts !! "artist")),
   PyStr.lower (default "" (parts !! "album")),
   PyStr.lower (default "" (parts !! "track"))).

(** One turn of the loop over the lines, lines 200-243. *)
Definition parse_step (st : ParseState) (raw_line : string) : ParseState :=
  let line := PyStr.strip raw_line in
  if PyStr.is_empty line || PyStr.startswith "#" line then st
  else
    let parts := parse_line line in
    match parts !! "track" with
    | None =>
        {| ps_entries := ps_entries st; ps_seen_keys := ps_seen_keys st;
           ps_skipped_lines := S (ps_skipped_lines st) |}
    | Some _ =>
        if bool_decide (dedup_key parts ∈ ps_seen_keys st) then st
        else
          {| ps_entries := ps_entries st ++ [parts];
             ps_seen_keys := ps_seen_keys st ∪ {[dedup_key parts]};
             ps_skipped_lines := ps_skipped_lines st |}
    end.

(** [parse_txt_playlist], lines 185-248, on the lines of the file. *)
Definition parse_lines (lines : list string) : ParseState :=
  foldl parse_step
    {| ps_entries := []; ps_seen_keys := ∅; ps_skipped_lines := 0 |} lines.

Definition parse_txt_playlist (lines : list string) : list (gmap string string) :=
  ps_entries (parse_lines lines).

(** An entry dict as the rest of the program reads it. *)
Definition entry_of_parts (parts : gmap string string) : Entry :=
  {| track := default "" (parts !! "track");
     artist := parts !! "artist";
     album := parts !! "album" |}.

(** ** Query cascade *)

(** The double quote. *)
Definition dq : string := String "034"%char "".

(** Lines 259-282: the queries, from the strictest to the broadest. *)
Definition search_queries (entry : Entry) : list string :=
  let q1 :=
    if truthy_opt (artist entry)
    then ["track:" +:+ dq +:+ track entry +:+ dq +:+ " artist:" +:+ dq
            +:+ get_or_empty (artist entry) +:+ dq]
    else [] in
  let q2 := ["track:" +:+ dq +:+ track entry +:+ dq] in
  let q3 :=
    if truthy_opt (album entry)
    then ["track:" +:+ dq +:+ track entry +:+ dq +:+ " album:" +:+ dq
            +:+ get_or_empty (album entry) +:+ dq]
    else [] in
  let q4 :=
    if truthy_opt (artist entry)
    then ["artist:" +:+ dq +:+ get_or_empty (artist entry) +:+ dq]
    else [] in
  q1 ++ q2 ++ q3 ++ q4.

(** ** Batches and the reconciliation computed by [main] *)

Definition ADD_BATCH_SIZE : nat := 100.
Definition REMOVE_BATCH_SIZE : nat := 100.

(** [range(0, stop, step)] for a positive [step]. *)
Definition range_step (stop step : nat) : list nat :=
  (fun k => k * step)%nat <$> seq 0 (Nat.div (stop + step - 1) step).

(** [chunked(items, size)], lines 385-387: the slices [items[i:i + size]]. *)
Definition chunked {A} (items : list A) (size : nat) : list (list A) :=
  (fun i => take size (drop i items)) <$> range_step (length items) size.

Definition is_nil {A} (l : list A) : bool :=
  match l with [] => true | _ => false end.

(** Lines 467-471: the identifiers to add. *)
Definition uris_to_add (overwrite : bool) (found_uris : list string)
    (existing_uris : gset string) : list string :=
  if overwrite then found_uris
  else filter (fun u => u ∉ existing_uris) found_uris.

(** Line 454: the identifiers the removal loop walks through. *)
Definition uris_to_remove (overwrite : bool) (existing_uris_list : list string)
  : list string :=
  if overwrite && negb (is_nil existing_uris_list) then existing_uris_list
  else [].

Record Plan := {
  to_add : list string;
  to_remove : list string
}.

(** The additions and removals [main] carries out for a list of desired
    identifiers and the set of existing ones; [list(existing_uris)] is
    [elements]. *)
Definition reconcile (desired : list string) (existing : gset string)
    (overwrite : bool) : Plan :=
  {| to_add := uris_to_add overwrite desired existing;
     to_remove := uris_to_remove overwrite (elements existing) |}.

(** ** The backend and the calls made to it *)

Record Playlist := {
  playlist_id : string;
  playlist_name : string;
  owner_id : string
}.

(** One page of a paginated listing; [next] tells that [response["next"]]
    is not [None]. *)
Record Page (A : Type) := {
  items : list A;
  next : bool
}.
Arguments items {A} _.
Arguments next {A} _.

(** The operations of [spotify_client] the program uses, over a backend
    state [B].  Reads leave the state alone; the three mutations return the
    new one.  An item of [playlist_items] is [Some u] when both
    [item["track"]] and its ["uri"] are present, [u] possibly empty. *)
Class SpotifyClient (B : Type) := {
  search : B -> string -> list Candidate;
  current_user : B -> string;
  current_user_playlists : B -> nat -> Page Playlist;
  user_playlist_create : B -> string -> string -> Playlist * B;
  playlist_items : B -> string -> nat -> Page (option string);
  playlist_remove_all_occurrences_of_items : B -> string -> list string -> B;
  playlist_add_items : B -> string -> list string -> B
}.

Inductive Call :=
| CallSearch (q : string)
| CallCurrentUser
| CallCurrentUserPlaylists (offset : nat)
| CallUserPlaylistCreate (user name_ : string)
| CallPlaylistItems (pid : string) (offset : nat)
| CallRemoveAllOccurrences (pid : string) (batch : list string)
| CallAddItems (pid : string) (batch : list string).

Definition is_search_call (c : Call) : bool :=
  match c with CallSearch _ => true | _ => false end.

Definition is_mutation (c : Call) : bool :=
  match c with
  | CallUserPlaylistCreate _ _ | CallRemoveAllOccurrences _ _
  | CallAddItems _ _ => true
  | _ => false
  end.

(** How a computation ends: with a value, by [sys.exit(code)], by a
    [KeyError], or, for the pagination loops, which the backend may keep
    going for ever, by running out of fuel. *)
Inductive Result (A : Type) :=
| Ok (a : A)
| SysExit (code : Z)
| KeyError (key : string)
| OutOfFuel.
Arguments Ok {A} _.
Arguments SysExit {A} _.
Arguments KeyError {A} _.
Arguments OutOfFuel {A}.

Section Program.

Context {B : Type} `{SpotifyClient B}.
Variable similarity_points : string -> string -> Z.

(** The backend state and the calls issued so far, oldest first. *)
Record World := {
  backend : B;
  calls : list Call
}.

Definition M (A : Type) : Type := World -> Result A * World.

Definition ret {A} (a : A) : M A := fun w => (Ok a, w).

Definition bind {A C} (m : M A) (k : A -> M C) : M C :=
  fun w =>
    match m w with
    | (Ok a, w') => k a w'
    | (SysExit code, w') => (SysExit code, w')
    | (KeyError key, w') => (KeyError key, w')
    | (OutOfFuel, w') => (OutOfFuel, w')
    end.

Notation "'let*' x ':=' m 'in' k" := (bind m (fun x => k))
  (at level 10, x name, m at level 100, k at level 200).

Definition sys_exit {A} (code : Z) : M A := fun w => (SysExit code, w).
Definition key_error {A} (key : string) : M A := fun w => (KeyError key, w).
Definition out_of_fuel {A} : M A := fun w => (OutOfFuel, w).

Definition log (c : Call) (w : World) : World :=
  {| backend := backend w; calls := calls w ++ [c] |}.

(** A read: answer from the current state, and log the call. *)
Definition read {A} (c : Call) (f : B -> A) : M A :=
  fun w => (Ok (f (backend w)), log c w).

(** A mutation: log the call and move to the new state. *)
Definition mutate {A} (c : Call) (f : B -> A * B) : M A :=
  fun w =>
    let '(a, b') := f (backend w) in
    (Ok a, {| backend := b'; calls := calls w ++ [c] |}).

(** [d[key]] on a key that may be missing. *)
Definition subscript (key : string) (field : option string) : M string :=
  match field with
  | Some v => ret v
  | None => key_error key
  end.

(** *** search_track_with_scoring *)

(** The [for query in search_queries] loop, lines 287-328.  [best_track]
    and [best_score] are set before the loop and live across its
    iterations. *)
Fixpoint query_loop (entry : Entry) (queries : list string)
    (best_track : option Candidate) (best_score : Z)
  : M (option string * list Candidate) :=
  match queries with
  | [] => ret (None, [])
  | query :: rest =>
      let* candidates := read (CallSearch query) (fun b => search b query) in
      match candidates with
      | [] => query_loop entry rest best_track best_score
      | _ :: _ =>
          ret (select_candidate similarity_points entry candidates
                 best_track best_score)
      end
  end.

(** Lines 254-328.  The result comes with the candidates that were scored
    on the way. *)
Definition search_track_with_scoring (entry : Entry)
  : M (option string * list Candidate) :=
  query_loop entry (search_queries entry) None 0.

(** *** Playlist helpers *)

(** Lines 335-336. *)
Definition get_current_user_id : M string :=
  read CallCurrentUser current_user.

(** The test of line 351. *)
Definition playlist_matches (user_id normalized_target : string)
    (p : Playlist) : bool :=
  String.eqb (normalize_playlist_name (playlist_name p)) normalized_target
  && String.eqb (owner_id p) user_id.

(** The [while True] loop of lines 344-356. *)
Fixpoint find_playlist_loop (fuel : nat) (user_id normalized_target : string)
    (offset : nat) : M (option Playlist) :=
  match fuel with
  | O => out_of_fuel
  | S fuel' =>
      let* playlists :=
        read (CallCurrentUserPlaylists offset)
             (fun b => current_user_playlists b offset) in
      match List.find (playlist_matches user_id normalized_target)
                      (items playlists) with
      | Some p => ret (Some p)
      | None =>
          if next playlists
          then find_playlist_loop fuel' user_id normalized_target
                                  (offset + 50)%nat
          else ret None
      end
  end.

(** Lines 339-358. *)
Definition find_playlist_by_name (fuel : nat) (user_id name_ : string)
  : M (option Playlist) :=
  find_playlist_loop fuel user_id (normalize_playlist_name name_) 0%nat.

(** Lines 373-375: [uris.add] for every item with a track and a non-empty
    uri. *)
Definition add_item_uris (uris : gset string) (page_items : list (option string))
  : gset string :=
  foldl (fun acc item =>
           match item with
           | Some u => if truthy u then acc ∪ {[u]} else acc
           | None => acc
           end) uris page_items.

(** The [while True] loop of lines 365-380. *)
Fixpoint playlist_uris_loop (fuel : nat) (pid : string) (uris : gset string)
    (offset : nat) : M (gset string) :=
  match fuel with
  | O => out_of_fuel
  | S fuel' =>
      let* response :=
        read (CallPlaylistItems pid offset)
             (fun b => playlist_items b pid offset) in
      let uris := add_item_uris uris (items response) in
      if next response
      then playlist_uris_loop fuel' pid uris (offset + 100)%nat
      else ret uris
  end.

(** Lines 361-382. *)
Definition get_all_playlist_track_uris (fuel : nat) (pid : string)
  : M (gset string) :=
  playlist_uris_loop fuel pid ∅ 0%nat.

(** *** main *)

(** The validation loop of lines 414-421.  The line printed for a found
    entry reads [entry['artist']]. *)
Fixpoint resolve_loop (entries : list Entry) (found_uris : list string)
    (not_found : list Entry) : M (list string * list Entry) :=
  match entries with
  | [] => ret (found_uris, not_found)
  | entry :: rest =>
      let* outcome := search_track_with_scoring entry in
      let found := outcome.1 in
      if truthy_opt found then
        let* _ := subscript "artist" (artist entry) in
        resolve_loop rest (found_uris ++ [get_or_empty found]) not_found
      else
        resolve_loop rest found_uris (not_found ++ [entry])
  end.

(** The removal loop of lines 458-463. *)
Fixpoint remove_batches (pid : string) (batches : list (list string))
  : M unit :=
  match batches with
  | [] => ret tt
  | batch :: rest =>
      let* _ :=
        mutate (CallRemoveAllOccurrences pid batch)
               (fun b => (tt, playlist_remove_all_occurrences_of_items b pid batch)) in
      remove_batches pid rest
  end.

(** The upload loop of lines 475-480. *)
Fixpoint add_batches (pid : string) (batches : list (list string))
  : M unit :=
  match batches with
  | [] => ret tt
  | batch :: rest =>
      let* _ :=
        mutate (CallAddItems pid batch)
               (fun b => (tt, playlist_add_items b pid batch)) in
      add_batches pid rest
  end.

(** [main], lines 394-482, from the parsed entries on.  [fuel] bounds the
    number of pages each pagination loop may ask for; pauses and printed
    lines are left out. *)
Definition main (fuel : nat) (overwrite : bool) (playlist_name_ : string)
    (entries : list Entry) : M unit :=
  let* resolved := resolve_loop entries [] [] in
  let found_uris := resolved.1 in
  if is_nil found_uris then sys_exit 1
  else
    let* user_id := get_current_user_id in
    let* playlist := find_playlist_by_name fuel user_id playlist_name_ in
    let* playlist :=
      match playlist with
      | Some p => ret p
      | None =>
          mutate (CallUserPlaylistCreate user_id playlist_name_)
                 (fun b => user_playlist_create b user_id playlist_name_)
      end in
    let pid := playlist_id playlist in
    let* existing_uris := get_all_playlist_track_uris fuel pid in
    let existing_uris_list := elements existing_uris in
    let* _ :=
      if overwrite && negb (is_nil existing_uris_list)
      then remove_batches pid (chunked existing_uris_list REMOVE_BATCH_SIZE)
      else ret tt in
    let uris := uris_to_add overwrite found_uris existing_uris in
    add_batches pid (chunked uris ADD_BATCH_SIZE).

(** A run from a backend state with an empty log. *)
Definition run {A} (m : M A) (b : B) : Result A * World :=
  m {| backend := b; calls := [] |}.

End Program.

(** ** An in-memory backend

    A small reference implementation of the client interface, used to run
    the program on concrete inputs. *)

Record Store := {
  st_catalog : list (string * list Candidate);
  st_user : string;
  st_playlists : list Playlist;
  st_members : list (string * list string)
}.

Fixpoint assoc {A} (key : string) (l : list (string * A)) : option A :=
  match l with
  | [] => None
  | (k, v) :: rest => if String.eqb k key then Some v else assoc key rest
  end.

Definition page_of {A} (size offset : nat) (l : list A) : Page A :=
  {| items := take size (drop offset l);
     next := (offset + size <? length l)%nat |}.

Definition store_members (s : Store) (pid : string) : list string :=
  default [] (assoc pid (st_members s)).

Definition store_set_members (s : Store) (pid : string) (uris : list string)
  : Store :=
  {| st_catalog := st_catalog s; st_user := st_user s;
     st_playlists := st_playlists s;
     st_members := (pid, uris) :: st_members s |}.

Definition store_create (s : Store) (user name_ : string) : Playlist * Store :=
  let p := {| playlist_id := "id:" +:+ name_; playlist_name := name_;
              owner_id := user |} in
  (p, {| st_catalog := st_catalog s; st_user := st_user s;
         st_playlists := st_playlists s ++ [p];
         st_members := st_members s |}).

#[export] Instance store_client : SpotifyClient Store := {|
  search := fun s q => take 25 (default [] (assoc q (st_catalog s)));
  current_user := st_user;
  current_user_playlists := fun s offset => page_of 50 offset (st_playlists s);
  user_playlist_create := store_create;
  playlist_items := fun s pid offset =>
    page_of 100 offset (Some <$> store_members s pid);
  playlist_remove_all_occurrences_of_items := fun s pid batch =>
    store_set_members s pid
      (filter (fun u => u ∉ batch) (store_members s pid));
  playlist_add_items := fun s pid batch =>
    store_set_members s pid (store_members s pid ++ batch)
|}.

(** ** Vocabulary of the statements *)

(** The query comes back without candidates. *)
Definition yields_nothing {B : Type} `{SpotifyClient B} (b : B) (q : string)
  : Prop := search b q = [].

(** What the selector answers for an entry on backend state [b]. *)
Definition resolved_uri {B : Type} `{SpotifyClient B}
    (similarity_points : string -> string -> Z) (b : B) (entry : Entry)
  : option string :=
  match (run (search_track_with_scoring similarity_points entry) b).1 with
  | Ok r => r.1
  | _ => None
  end.

(** The selector finds no usable identifier for the entry. *)
Definition unresolved {B : Type} `{SpotifyClient B}
    (similarity_points : string -> string -> Z) (b : B) (entry : Entry) : Prop :=
  truthy_opt (resolved_uri similarity_points b entry) = false.

(** An addition to or a removal from a playlist. *)
Definition is_sync_call (c : Call) : bool :=
  match c with
  | CallRemoveAllOccurrences _ _ | CallAddItems _ _ => true
  | _ => false
  end.

(** A line that the parser passes over: blank, or a comment. *)
Definition insignificant (raw_line : string) : bool :=
  PyStr.is_empty (PyStr.strip raw_line)
  || PyStr.startswith "#" (PyStr.strip raw_line).

(** A line that is read but has no track field. *)
Definition malformed (raw_line : string) : bool :=
  negb (insignificant raw_line)
  && bool_decide (parse_line (PyStr.strip raw_line) !! "track" = None).

(** The state kept by the loop: the seen keys are those of the entries,
    which are pairwise distinct, and every entry has a track. *)
Definition parse_invariant (st : ParseState) : Prop :=
  ps_seen_keys st = list_to_set (dedup_key <$> ps_entries st)
  /\ NoDup (dedup_key <$> ps_entries st)
  /\ Forall (fun parts => is_Some (parts !! "track")) (ps_entries st).

(** A line is absorbed by a state when a turn of the loop on it leaves the
    entries and the seen keys as they are. *)
Definition absorbed (seen : gset (string * string * string))
    (raw_line : string) : Prop :=
  insignificant raw_line = true
  \/ parse_line (PyStr.strip raw_line) !! "track" = None
  \/ dedup_key (parse_line (PyStr.strip raw_line)) ∈ seen.

(** A removal from a playlist. *)
Definition is_removal_call (c : Call) : bool :=
  match c with CallRemoveAllOccurrences _ _ => true | _ => false end.

(** Calls added to the log by a phase, none of them an addition or a
    removal. *)
Definition extends_quietly {B : Type} (w w' : @World B) : Prop :=
  exists added, calls w' = calls w ++ added
                /\ Forall (fun c => is_sync_call c = false) added.

(** The offsets [first], [first + step], ... of [n + 1] pages. *)
Definition page_offsets (first step n : nat) : list nat :=
  (fun k => first + step * k)%nat <$> seq 0 (S n).
Arguments page_offsets : simpl never.

(** The two strings are the same or one contains the other: the tests of
    one iteration of the artist loop. *)
Definition related (entry_artist a : string) : bool :=
  String.eqb entry_artist a
  || PyStr.contains entry_artist a || PyStr.contains a entry_artist.

(** ** Inputs for concrete runs *)

(** A stand-in for the similarity points in runs on concrete inputs. *)
Definition zero_similarity : string -> string -> Z := fun _ _ => 0.

(** Scenario A of the specification. *)
Definition janet_entry : Entry :=
  {| track := "Dammit Janet"; artist := Some "Barry Bostwick"; album := Some "" |}.
Definition janet_candidate : Candidate :=
  {| uri := "spotify:track:janet"; name := "Dammit Janet";
     artists := ["Barry Bostwick"]; album_name := "Rocky Horror" |}.

(** A candidate credited to a band and to its leader, for an entry that
    names the leader. *)
Definition santana_entry : Entry :=
  {| track := "Oye Como Va"; artist := Some "Carlos Santana"; album := None |}.
Definition santana_candidate : Candidate :=
  {| uri := "spotify:track:oye"; name := "Oye Como Va";
     artists := ["Santana"; "Carlos Santana"]; album_name := "Abraxas" |}.

(** An entry whose artist field is not empty but normalizes to the empty
    string, and a candidate credited to the same name. *)
Definition dash_entry : Entry :=
  {| track := "Intro"; artist := Some "-"; album := None |}.
Definition dash_candidate : Candidate :=
  {| uri := "spotify:track:intro"; name := "Intro";
     artists := ["-"]; album_name := "Demo" |}.

Definition layla_entry : Entry :=
  {| track := "Layla"; artist := Some "Derek and the Dominos";
     album := Some "Layla and Other Assorted Love Songs" |}.

(** Scores -10: another title by another artist. *)
Definition poor_candidate : Candidate :=
  {| uri := "spotify:track:poor"; name := "Zzz"; artists := ["Qqq"];
     album_name := "Www" |}.

(** Scores 65: the title, credited to a longer artist name. *)
Definition decent_candidate : Candidate :=
  {| uri := "spotify:track:decent"; name := "Layla";
     artists := ["Eric Clapton"; "Derek and the Dominos Band"];
     album_name := "Unplugged" |}.

(** Scores 100: title, artist and album all agree. *)
Definition great_candidate : Candidate :=
  {| uri := "spotify:track:great"; name := "Layla";
     artists := ["Derek & The Dominos"];
     album_name := "Layla And Other Assorted Love Songs" |}.

Definition store_with (catalog : list (string * list Candidate)) : Store :=
  {| st_catalog := catalog; st_user := "me"; st_playlists := [];
     st_members := [] |}.

Definition nth_query (n : nat) (entry : Entry) : string :=
  nth n (search_queries entry) "".

(** The strict query yields one poor candidate; the track-only query would
    yield a great one. *)
Definition poor_first_store : Store :=
  store_with [(nth_query 0 layla_entry, [poor_candidate]);
              (nth_query 1 layla_entry, [great_candidate])].

(** The strict query yields nothing; the track-only query yields a poor
    candidate, a great one and a decent one. *)
Definition great_second_store : Store :=
  store_with [(nth_query 1 layla_entry,
               [poor_candidate; great_candidate; decent_candidate])].

(** The strict query yields a poor, a decent and another poor candidate. *)
Definition decent_store : Store :=
  store_with [(nth_query 0 layla_entry,
               [poor_candidate; decent_candidate; poor_candidate])].

(** A user with two playlists of the same normalized name as another
    user's, and a membership list with a repeated and an empty uri. *)
Definition mix_store : Store :=
  {| st_catalog := [];
     st_user := "me";
     st_playlists :=
       [{| playlist_id := "p0"; playlist_name := "My Mix"; owner_id := "you" |};
        {| playlist_id := "p1"; playlist_name := "  my   MIX ";
           owner_id := "me" |};
        {| playlist_id := "p2"; playlist_name := "My Mix"; owner_id := "me" |}];
     st_members := [("p1", ["u1"; ""; "u2"; "u1"])] |}.

(** A backend that knows no track at all. *)
Definition empty_store : Store := store_with [].

(** Scenario C of the specification: the two entries resolve to [u2] and
    [u3], and the user's playlist holds [u1] and [u2]. *)
Definition u2_candidate : Candidate :=
  {| uri := "u2"; name := "Dammit Janet"; artists := ["Barry Bostwick"];
     album_name := "Rocky Horror" |}.
Definition u3_candidate : Candidate :=
  {| uri := "u3"; name := "Oye Como Va";
     artists := ["Santana"; "Carlos Santana"]; album_name := "Abraxas" |}.
Definition scenario_c_store : Store :=
  {| st_catalog := [(nth_query 0 janet_entry, [u2_candidate]);
                    (nth_query 0 santana_entry, [u3_candidate])];
     st_user := "me";
     st_playlists :=
       [{| playlist_id := "p"; playlist_name := "Mix"; owner_id := "me" |}];
     st_members := [("p", ["u1"; "u2"])] |}.

(** * Properties *)

(** ** String primitives *)

Module PyStrFacts.
Import PyStr.

Lemma all_chars_app p s t :
  all_chars p (s +:+ t) = all_chars p s && all_chars p t.
Proof.
  induction s as [|x s IH]; simpl; [reflexivity|].
  rewrite IH. apply andb_assoc.
Qed.

Lemma all_chars_impl (p q : ascii -> bool) s :
  (forall x, p x = true -> q x = true) ->
  all_chars p s = true -> all_chars q s = true.
Proof.
  intros Hpq. induction s as [|x s IH]; simpl; [done|].
  rewrite !andb_true_iff. intros [Hx Hs]. split; auto.
Qed.

(** *** [lower] *)

Lemma lower_char_lowered c : lowered (lower_char c) = true.
Proof. destruct c as [[] [] [] [] [] [] [] []]; reflexivity. Qed.

Lemma lower_all_lowered s : all_chars lowered (lower s) = true.
Proof.
  induction s as [|x s IH]; simpl; [done|].
  by rewrite lower_char_lowered, IH.
Qed.

Lemma lower_fixed s : all_chars lowered s = true -> lower s = s.
Proof.
  induction s as [|x s IH]; simpl; [done|].
  rewrite andb_true_iff. intros [Hx Hs].
  apply Ascii.eqb_eq in Hx. by rewrite Hx, IH.
Qed.

(** *** [replace] *)

Lemma replace_char_all p c by_ s :
  all_chars p by_ = true -> all_chars p s = true ->
  all_chars p (replace_char c by_ s) = true.
Proof.
  intros Hby. induction s as [|x s IH]; simpl; [done|].
  rewrite andb_true_iff. intros [Hx Hs].
  destruct (Ascii.eqb x c); simpl.
  - rewrite all_chars_app, Hby. by apply IH.
  - rewrite Hx. by apply IH.
Qed.

Lemma replace_char_gone c by_ s :
  all_chars (is_not c) by_ = true ->
  all_chars (is_not c) (replace_char c by_ s) = true.
Proof.
  intros Hby. induction s as [|x s IH]; simpl; [done|].
  destruct (Ascii.eqb x c) eqn:E; simpl.
  - by rewrite all_chars_app, Hby.
  - unfold is_not at 1. by rewrite E.
Qed.

Lemma replace_char_fixed c by_ s :
  all_chars (is_not c) s = true -> replace_char c by_ s = s.
Proof.
  induction s as [|x s IH]; simpl; [done|].
  rewrite andb_true_iff. unfold is_not at 1. intros [Hx Hs].
  destruct (Ascii.eqb x c); [done|]. by rewrite IH.
Qed.

(** *** Removal of a character class *)

Lemma remove_class_all p cls s :
  all_chars p s = true -> all_chars p (remove_class cls s) = true.
Proof.
  induction s as [|x s IH]; simpl; [done|].
  rewrite andb_true_iff. intros [Hx Hs].
  destruct (cls x); simpl; [by apply IH|].
  rewrite Hx. by apply IH.
Qed.

Lemma remove_class_gone cls s :
  all_chars (fun x => negb (cls x)) (remove_class cls s) = true.
Proof.
  induction s as [|x s IH]; simpl; [done|].
  destruct (cls x) eqn:E; simpl; [done|]. by rewrite E.
Qed.

Lemma remove_class_fixed cls s :
  all_chars (fun x => negb (cls x)) s = true -> remove_class cls s = s.
Proof.
  induction s as [|x s IH]; simpl; [done|].
  rewrite andb_true_iff. intros [Hx Hs].
  destruct (cls x); [done|]. by rewrite IH.
Qed.

(** *** Whitespace runs *)

Lemma collapse_from_all p b s :
  p " "%char = true -> all_chars p s = true ->
  all_chars p (collapse_from b s) = true.
Proof.
  intros Hsp. revert b. induction s as [|x s IH]; intros b; simpl; [done|].
  rewrite andb_true_iff. intros [Hx Hs].
  destruct (is_space x), b; simpl; rewrite ?Hsp, ?Hx; simpl; by apply IH.
Qed.

Lemma collapse_from_single_spaced b s :
  single_spaced b (collapse_from b s) = true.
Proof.
  revert b. induction s as [|x s IH]; intros b; simpl; [done|].
  destruct (is_space x) eqn:E.
  - destruct b; [apply IH|]. simpl. apply IH.
  - simpl. rewrite E. apply IH.
Qed.

Lemma collapse_from_fixed b s :
  single_spaced b s = true -> collapse_from b s = s.
Proof.
  revert b. induction s as [|x s IH]; intros b; simpl; [done|].
  destruct (is_space x).
  - rewrite !andb_true_iff. intros [[Hx Hb] Hs].
    apply Ascii.eqb_eq in Hx. subst x.
    destruct b; [done|]. by rewrite IH.
  - intros Hs. by rewrite IH.
Qed.

Lemma single_spaced_weaken b s :
  single_spaced b s = true -> single_spaced false s = true.
Proof.
  destruct s as [|x s]; simpl; [done|].
  destruct (is_space x); [|done].
  rewrite !andb_true_iff. intros [[Hx _] Hs]. by rewrite Hx, Hs.
Qed.

(** *** [strip] *)

Lemma lstrip_all p s : all_chars p s = true -> all_chars p (lstrip s) = true.
Proof.
  induction s as [|x s IH]; simpl; [done|].
  rewrite andb_true_iff. intros [Hx Hs].
  destruct (is_space x); [by apply IH|]. simpl. by rewrite Hx, Hs.
Qed.

Lemma rstrip_all p s : all_chars p s = true -> all_chars p (rstrip s) = true.
Proof.
  induction s as [|x s IH]; simpl; [done|].
  rewrite andb_true_iff. intros [Hx Hs].
  destruct (is_space x && is_empty (rstrip s)); simpl; [done|].
  rewrite Hx. by apply IH.
Qed.

Lemma strip_all p s : all_chars p s = true -> all_chars p (strip s) = true.
Proof. intros Hs. unfold strip. by apply rstrip_all, lstrip_all. Qed.

Lemma lstrip_single_spaced b s :
  single_spaced b s = true -> single_spaced false (lstrip s) = true.
Proof.
  revert b. induction s as [|x s IH]; intros b; simpl; [done|].
  destruct (is_space x) eqn:E.
  - rewrite !andb_true_iff. intros [_ Hs]. by apply (IH true).
  - intros Hs. simpl. by rewrite E.
Qed.

Lemma rstrip_single_spaced b s :
  single_spaced b s = true -> single_spaced b (rstrip s) = true.
Proof.
  revert b. induction s as [|x s IH]; intros b; simpl; [done|].
  destruct (is_space x) eqn:E; simpl.
  - rewrite !andb_true_iff. intros [[Hx Hb] Hs].
    destruct (is_empty (rstrip s)); simpl; [done|].
    rewrite E, Hx, Hb. simpl. by apply IH.
  - intros Hs. rewrite E. by apply IH.
Qed.

Lemma lstrip_no_leading_space s : no_leading_space (lstrip s) = true.
Proof.
  induction s as [|x s IH]; simpl; [done|].
  destruct (is_space x) eqn:E; [done|]. simpl. by rewrite E.
Qed.

Lemma lstrip_fixed s : no_leading_space s = true -> lstrip s = s.
Proof. destruct s as [|x s]; simpl; [done|]. by destruct (is_space x). Qed.

Lemma rstrip_no_leading_space s :
  no_leading_space s = true -> no_leading_space (rstrip s) = true.
Proof.
  destruct s as [|x s]; simpl; [done|].
  destruct (is_space x) eqn:E; [done|]. simpl. intros _. by rewrite E.
Qed.

Lemma rstrip_idem s : rstrip (rstrip s) = rstrip s.
Proof.
  induction s as [|x s IH]; simpl; [done|].
  destruct (is_space x && is_empty (rstrip s)) eqn:E; simpl; [done|].
  by rewrite IH, E.
Qed.

Lemma strip_idem s : strip (strip s) = strip s.
Proof.
  unfold strip.
  rewrite (lstrip_fixed (rstrip (lstrip s))).
  - apply rstrip_idem.
  - apply rstrip_no_leading_space, lstrip_no_leading_space.
Qed.

End PyStrFacts.

(** ** Normalizer *)

Section NormalizerFacts.
Import PyStr PyStrFacts.

Lemma normalize_unfold text :
  normalize text = if is_empty text then "" else normalize_steps text.
Proof. reflexivity. Qed.

Lemma normalize_steps_lowered s : all_chars lowered (normalize_steps s) = true.
Proof.
  unfold normalize_steps, collapse_ws.
  apply strip_all, collapse_from_all; [done|].
  apply remove_class_all, replace_char_all; [done|].
  apply lower_all_lowered.
Qed.

Lemma normalize_steps_no_amp s :
  all_chars (is_not "&") (normalize_steps s) = true.
Proof.
  unfold normalize_steps, collapse_ws.
  apply strip_all, collapse_from_all; [done|].
  apply remove_class_all, replace_char_gone. done.
Qed.

Lemma normalize_steps_no_punct s :
  all_chars not_punct (normalize_steps s) = true.
Proof.
  unfold normalize_steps, collapse_ws.
  apply strip_all, collapse_from_all; [done|].
  apply remove_class_gone.
Qed.

Lemma normalize_steps_single_spaced s :
  single_spaced false (normalize_steps s) = true.
Proof.
  unfold normalize_steps, strip, collapse_ws.
  apply rstrip_single_spaced, (lstrip_single_spaced false).
  apply collapse_from_single_spaced.
Qed.

Lemma normalize_steps_idem s :
  normalize_steps (normalize_steps s) = normalize_steps s.
Proof.
  unfold normalize_steps at 1.
  rewrite (lower_fixed _ (normalize_steps_lowered s)).
  rewrite (replace_char_fixed _ _ _ (normalize_steps_no_amp s)).
  rewrite (remove_class_fixed _ _ (normalize_steps_no_punct s)).
  unfold collapse_ws.
  rewrite (collapse_from_fixed _ _ (normalize_steps_single_spaced s)).
  unfold normalize_steps. apply strip_idem.
Qed.

Lemma normalize_no_punct s : all_chars not_punct (normalize s) = true.
Proof.
  rewrite normalize_unfold. destruct (is_empty s); [done|].
  apply normalize_steps_no_punct.
Qed.

(** *** The live-suffix pattern needs a hyphen *)

Lemma not_punct_no_hyphen s :
  all_chars not_punct s = true -> all_chars (is_not "-") s = true.
Proof.
  apply all_chars_impl. intros x. unfold not_punct, is_punct, is_not.
  destruct (Ascii.eqb x "-"); [|done]. by rewrite orb_true_r.
Qed.

Lemma match_live_suffix_no_hyphen s :
  all_chars (is_not "-") s = true -> match_live_suffix s = None.
Proof.
  intros Hs. unfold match_live_suffix.
  pose proof (lstrip_all _ _ Hs) as Hl.
  destruct (lstrip s) as [|x r]; [done|].
  simpl in Hl. apply andb_true_iff in Hl as [Hx _].
  destruct x as [[] [] [] [] [] [] [] []]; try done.
Qed.

Lemma sub_live_suffix_no_hyphen s :
  all_chars (is_not "-") s = true -> sub_live_suffix s = s.
Proof.
  induction s as [|x s IH]; [done|].
  intros Hs. cbn [sub_live_suffix].
  rewrite (match_live_suffix_no_hyphen _ Hs).
  simpl in Hs. apply andb_true_iff in Hs as [_ Hs]. by rewrite IH.
Qed.

End NormalizerFacts.

(** C8. [normalize] is idempotent: normalizing a normalized text changes
    nothing. *)
Theorem normalize_idempotent (s : string) :
  normalize (normalize s) = normalize s.
Proof.
  rewrite (normalize_unfold s).
  destruct (PyStr.is_empty s); [reflexivity|].
  rewrite normalize_unfold.
  destruct (PyStr.is_empty (normalize_steps s)) eqn:E.
  - by destruct (normalize_steps s).
  - apply normalize_steps_idem.
Qed.

(** C10. [normalize_track_for_matching] agrees with [normalize] on every
    input: [normalize] has removed every hyphen, so the pattern that strips
    a trailing live suffix never matches. *)
Theorem normalize_track_for_matching_is_normalize (x : string) :
  normalize_track_for_matching x = normalize x.
Proof.
  unfold normalize_track_for_matching.
  apply sub_live_suffix_no_hyphen, not_punct_no_hyphen, normalize_no_punct.
Qed.

(** C3. A track name with a live suffix does not map to the output of the
    bare title: the suffix survives, minus its hyphen. *)
Theorem live_suffix_not_neutralized :
  normalize_track_for_matching "Layla - Live at the Fillmore"
    = "layla live at the fillmore"
  /\ normalize_track_for_matching "Layla" = "layla"
  /\ normalize_track_for_matching "Layla - Live at the Fillmore"
       <> normalize_track_for_matching "Layla".
Proof. repeat split; [reflexivity..|discriminate]. Qed.

(** ** Candidate scorer *)

Section ScorerFacts.
Variable similarity_points : string -> string -> Z.

Lemma artist_loop_unrelated entry_artist l :
  Forall (fun a => related entry_artist a = false) l ->
  artist_loop entry_artist l = None.
Proof.
  induction 1 as [|a l Ha _ IH]; [done|]. simpl.
  unfold related in Ha. rewrite <- orb_assoc in Ha.
  apply orb_false_iff in Ha as [-> ->]. done.
Qed.

Lemma artist_loop_skip entry_artist pre l :
  Forall (fun a => related entry_artist a = false) pre ->
  artist_loop entry_artist (pre ++ l) = artist_loop entry_artist l.
Proof.
  induction 1 as [|a pre Ha _ IH]; [done|]. simpl.
  unfold related in Ha. rewrite <- orb_assoc in Ha.
  apply orb_false_iff in Ha as [-> ->]. done.
Qed.

Lemma artist_loop_partial entry_artist l :
  entry_artist ∉ l ->
  Exists (fun a => related entry_artist a = true) l ->
  artist_loop entry_artist l = Some 25.
Proof.
  intros Hne Hex. induction Hex as [a l Ha|a l _ IH]; simpl.
  - destruct (String.eqb_spec entry_artist a) as [->|Hn].
    { exfalso. apply Hne. left. }
    unfold related in Ha. apply String.eqb_neq in Hn.
    rewrite Hn in Ha. simpl in Ha. by rewrite Ha.
  - destruct (String.eqb_spec entry_artist a) as [->|Hn].
    { exfalso. apply Hne. left. }
    destruct (_ || _); [done|]. apply IH. intros Hin. apply Hne. by right.
Qed.

(** The score is the sum of its five terms. *)
Lemma score_candidate_terms entry cand :
  score_candidate similarity_points entry cand =
    (if String.eqb (normalize_track_for_matching (name cand))
                   (normalize_track_for_matching (track entry))
     then 40
     else similarity_points (normalize_track_for_matching (name cand))
                            (normalize_track_for_matching (track entry)))
    + (if PyStr.contains "live" (normalize (name cand))
          && negb (PyStr.contains "live" (normalize (track entry)))
       then 5 else 0)
    + artist_term (normalize (get_or_empty (artist entry)))
                  (normalize <$> artists cand)
    + (if truthy (normalize (clean_album_name (get_or_empty (album entry))
                                              (get_or_empty (artist entry))))
          && PyStr.contains
               (normalize (clean_album_name (get_or_empty (album entry))
                                            (get_or_empty (artist entry))))
               (normalize (album_name cand))
       then 20 else 0)
    + (if PyStr.contains "live" (normalize (get_or_empty (album entry)))
          && PyStr.contains "live" (normalize (album_name cand))
       then 10 else 0).
Proof.
  unfold score_candidate.
  repeat match goal with |- context [if ?b then _ else _] => destruct b end;
    lia.
Qed.

End ScorerFacts.

(** C5, as amended.  The artist term is gated on the normalized artist of
    the entry.  When that is empty the term is 0.  When it is not, the term
    is +40 if it equals a normalized artist name of the candidate that no
    related name precedes, +25 if it equals none of the names but is
    related to one by containment, and -10 if it is related to none. *)
Theorem artist_term_cases (entry : Entry) (cand : Candidate) :
  let entry_artist := normalize (get_or_empty (artist entry)) in
  let track_artists := normalize <$> artists cand in
  (truthy entry_artist = false -> artist_term entry_artist track_artists = 0)
  /\ (truthy entry_artist = true ->
      (forall pre post,
          track_artists = pre ++ entry_artist :: post ->
          Forall (fun a => related entry_artist a = false) pre ->
          artist_term entry_artist track_artists = 40)
      /\ (entry_artist ∉ track_artists ->
          Exists (fun a => related entry_artist a = true) track_artists ->
          artist_term entry_artist track_artists = 25)
      /\ (Forall (fun a => related entry_artist a = false) track_artists ->
          artist_term entry_artist track_artists = -10)).
Proof.
  intros ea tas. unfold artist_term.
  split; intros Hne; rewrite Hne; [done|].
  split; [|split].
  - intros pre post -> Hpre. rewrite artist_loop_skip by done.
    simpl. by rewrite String.eqb_refl.
  - intros Hnotin Hex. by rewrite artist_loop_partial.
  - intros Hall. by rewrite artist_loop_unrelated.
Qed.

Lemma artist_term_cases_witness :
  artist_term (normalize (get_or_empty (artist janet_entry)))
              (normalize <$> artists janet_candidate) = 40
  /\ artist_term (normalize (get_or_empty (artist layla_entry)))
                 (normalize <$> artists decent_candidate) = 25
  /\ artist_term (normalize (get_or_empty (artist layla_entry)))
                 (normalize <$> artists poor_candidate) = -10
  /\ artist_term (normalize (get_or_empty (artist dash_entry)))
                 (normalize <$> artists dash_candidate) = 0.
Proof.
  split; [|split; [|split]].
  - refine (proj1 (proj2 (artist_term_cases janet_entry janet_candidate) _)
                  [] [] _ _).
    + reflexivity.
    + reflexivity.
    + constructor.
  - refine (proj1 (proj2 (proj2 (artist_term_cases layla_entry decent_candidate)
                            _)) _ _).
    + reflexivity.
    + apply (bool_decide_unpack _). vm_compute. exact I.
    + apply Exists_cons_tl, Exists_cons_hd. reflexivity.
  - refine (proj2 (proj2 (proj2 (artist_term_cases layla_entry poor_candidate)
                            _)) _).
    + reflexivity.
    + repeat constructor.
  - refine (proj1 (artist_term_cases dash_entry dash_candidate) _).
    reflexivity.
Defined.

(** C5, as stated, fails on two inputs.  An exact match that comes after a
    name related by containment scores +25, not +40; and an artist field
    that is not empty but normalizes to the empty string contributes
    nothing, neither +40, +25 nor -10. *)
Lemma artist_term_counterexample :
  (truthy (get_or_empty (artist santana_entry)) = true
   /\ normalize (get_or_empty (artist santana_entry))
        ∈ normalize <$> artists santana_candidate
   /\ artist_term (normalize (get_or_empty (artist santana_entry)))
                  (normalize <$> artists santana_candidate) = 25)
  /\ (truthy (get_or_empty (artist dash_entry)) = true
      /\ normalize (get_or_empty (artist dash_entry))
           ∈ normalize <$> artists dash_candidate
      /\ artist_term (normalize (get_or_empty (artist dash_entry)))
                     (normalize <$> artists dash_candidate) = 0).
Proof.
  repeat split; try reflexivity.
  - vm_compute. apply list_elem_of_further, list_elem_of_here.
  - vm_compute. apply list_elem_of_here.
Qed.

(** C2, as amended.  When the normalized track names agree, the entry's
    normalized artist is not empty and it equals a normalized artist name of
    the candidate that no related name precedes, the score is at least 80. *)
Theorem exact_match_scores_80 (similarity_points : string -> string -> Z)
    (entry : Entry) (cand : Candidate) (pre post : list string) :
  let entry_artist := normalize (get_or_empty (artist entry)) in
  truthy entry_artist = true ->
  normalize_track_for_matching (name cand)
    = normalize_track_for_matching (track entry) ->
  normalize <$> artists cand = pre ++ entry_artist :: post ->
  Forall (fun a => related entry_artist a = false) pre ->
  80 <= score_candidate similarity_points entry cand.
Proof.
  intros ea Hne Htrack Hartists Hpre.
  rewrite score_candidate_terms, Htrack, String.eqb_refl.
  unfold artist_term. fold ea. rewrite Hne, Hartists.
  rewrite artist_loop_skip by done. simpl. rewrite String.eqb_refl.
  repeat match goal with |- context [if ?b then _ else _] => destruct b end;
    lia.
Qed.

Lemma exact_match_scores_80_witness :
  80 <= score_candidate zero_similarity janet_entry janet_candidate.
Proof.
  apply (exact_match_scores_80 zero_similarity janet_entry janet_candidate [] []).
  - reflexivity.
  - reflexivity.
  - reflexivity.
  - constructor.
Defined.

(** C2, as stated, fails on two inputs.  The track names agree and the
    entry's normalized artist is among the candidate's, yet the score is 65
    when a related name precedes the exact one, and 40 when the artist
    field normalizes to the empty string. *)
Lemma exact_match_counterexample :
  (truthy (get_or_empty (artist santana_entry)) = true
   /\ normalize_track_for_matching (name santana_candidate)
        = normalize_track_for_matching (track santana_entry)
   /\ normalize (get_or_empty (artist santana_entry))
        ∈ normalize <$> artists santana_candidate
   /\ score_candidate zero_similarity santana_entry santana_candidate = 65)
  /\ (truthy (get_or_empty (artist dash_entry)) = true
      /\ normalize_track_for_matching (name dash_candidate)
           = normalize_track_for_matching (track dash_entry)
      /\ normalize (get_or_empty (artist dash_entry))
           ∈ normalize <$> artists dash_candidate
      /\ score_candidate zero_similarity dash_entry dash_candidate = 40).
Proof.
  repeat split; try reflexivity.
  - vm_compute. apply list_elem_of_further, list_elem_of_here.
  - vm_compute. apply list_elem_of_here.
Qed.

(** ** Match selector *)

Section SelectorFacts.
Variable similarity_points : string -> string -> Z.
Let score := score_candidate similarity_points.

(** The loop returns at the first candidate that scores 85 or more and
    scores nothing after it. *)
Lemma candidate_loop_return entry pre cand post best_track best_score :
  Forall (fun c => score entry c < 85) pre ->
  85 <= score entry cand ->
  candidate_loop similarity_points entry (pre ++ cand :: post)
                 best_track best_score
  = (Returned (uri cand), pre ++ [cand]).
Proof.
  intros Hpre Hc. revert best_track best_score.
  induction Hpre as [|x pre Hx _ IH]; intros bt bs; simpl.
  - fold (score entry cand). destruct (Z.leb_spec 85 (score entry cand)); [done|lia].
  - fold (score entry x). destruct (Z.leb_spec 85 (score entry x)); [lia|].
    destruct (bs <? score entry x); by rewrite IH.
Qed.

(** Candidates that score no more than [best_score] leave the loop
    variables as they are. *)
Lemma candidate_loop_no_better entry cands best_track best_score :
  Forall (fun c => score entry c < 85) cands ->
  Forall (fun c => score entry c <= best_score) cands ->
  candidate_loop similarity_points entry cands best_track best_score
  = (Exhausted best_track best_score, cands).
Proof.
  intros H85 Hle. revert H85.
  induction Hle as [|x l Hx _ IH]; intros H85; [done|].
  apply Forall_cons in H85 as [Hx85 H85]. simpl.
  fold (score entry x). destruct (Z.leb_spec 85 (score entry x)); [lia|].
  destruct (Z.ltb_spec best_score (score entry x)); [lia|].
  by rewrite IH.
Qed.

(** With no score of 85 or more, the loop ends on the first candidate of
    maximal score, when that score beats the initial [best_score]. *)
Lemma candidate_loop_best entry pre best post best_track best_score :
  Forall (fun c => score entry c < 85) (pre ++ best :: post) ->
  Forall (fun c => score entry c < score entry best) pre ->
  Forall (fun c => score entry c <= score entry best) post ->
  best_score < score entry best ->
  candidate_loop similarity_points entry (pre ++ best :: post)
                 best_track best_score
  = (Exhausted (Some best) (score entry best), pre ++ best :: post).
Proof.
  intros H85 Hpre Hpost. revert best_track best_score H85.
  induction Hpre as [|x pre Hx _ IH]; intros bt bs H85 Hbs; simpl in *.
  - apply Forall_cons in H85 as [Hb85 H85].
    fold (score entry best).
    destruct (Z.leb_spec 85 (score entry best)); [lia|].
    destruct (Z.ltb_spec bs (score entry best)); [|lia].
    by rewrite candidate_loop_no_better.
  - apply Forall_cons in H85 as [Hx85 H85].
    fold (score entry x).
    destruct (Z.leb_spec 85 (score entry x)); [lia|].
    destruct (Z.ltb_spec bs (score entry x)); rewrite IH; try done; lia.
Qed.

(** The decision after a loop that found no score of 85 or more, in terms
    of the first candidate of maximal score. *)
Lemma select_candidate_best entry pre best post :
  Forall (fun c => score entry c < 85) (pre ++ best :: post) ->
  Forall (fun c => score entry c < score entry best) pre ->
  Forall (fun c => score entry c <= score entry best) post ->
  select_candidate similarity_points entry (pre ++ best :: post) None 0
  = (if 55 <=? score entry best then Some (uri best)
     else if is_exact_track_artist_match entry best && (50 <=? score entry best)
          then Some (uri best)
          else None,
     pre ++ best :: post).
Proof.
  intros H85 Hpre Hpost. unfold select_candidate.
  destruct (Z.lt_ge_cases 0 (score entry best)) as [Hpos|Hneg].
  - by rewrite candidate_loop_best.
  - rewrite candidate_loop_no_better; [|done|].
    + simpl. destruct (Z.leb_spec 55 (score entry best)); [lia|].
      destruct (Z.leb_spec 50 (score entry best)); [lia|].
      by rewrite andb_false_r.
    + apply Forall_app. split; [|apply Forall_cons; split].
      * eapply Forall_impl; [exact Hpre|]. simpl. intros. lia.
      * lia.
      * eapply Forall_impl; [exact Hpost|]. simpl. intros. lia.
Qed.

(** Scores below 50 all round: nothing is accepted. *)
Lemma select_candidate_all_poor entry cands :
  Forall (fun c => score entry c < 50) cands ->
  select_candidate similarity_points entry cands None 0 = (None, cands).
Proof.
  intros Hpoor. unfold select_candidate.
  assert (forall bt bs, bs < 50 ->
            exists bt' bs', bs' < 50 /\
              candidate_loop similarity_points entry cands bt bs
              = (Exhausted bt' bs', cands)) as Hloop.
  { induction Hpoor as [|x l Hx _ IH]; intros bt bs Hbs; simpl.
    - by exists bt, bs.
    - fold (score entry x).
      destruct (Z.leb_spec 85 (score entry x)); [lia|].
      destruct (Z.ltb_spec bs (score entry x)).
      + destruct (IH (Some x) (score entry x) Hx) as (bt' & bs' & Hlt & ->).
        by exists bt', bs'.
      + destruct (IH bt bs Hbs) as (bt' & bs' & Hlt & ->).
        by exists bt', bs'. }
  destruct (Hloop None 0 ltac:(lia)) as (bt' & bs' & Hlt & ->).
  unfold accept_best. destruct bt'; [|done].
  destruct (Z.leb_spec 55 bs'); [lia|].
  destruct (Z.leb_spec 50 bs'); [lia|]. by rewrite andb_false_r.
Qed.

End SelectorFacts.

(** ** Query cascade *)

Section CascadeFacts.
Context {B : Type} `{SpotifyClient B}.
Variable similarity_points : string -> string -> Z.

(** The queries that come back empty are issued one after the other, and
    the first one that yields candidates ends the loop. *)
Lemma query_loop_first_yielding entry qpre q qpost best_track best_score w :
  Forall (yields_nothing (backend w)) qpre ->
  search (backend w) q <> [] ->
  query_loop similarity_points entry (qpre ++ q :: qpost) best_track best_score w
  = (Ok (select_candidate similarity_points entry (search (backend w) q)
           best_track best_score),
     {| backend := backend w;
        calls := calls w ++ (CallSearch <$> (qpre ++ [q])) |}).
Proof.
  intros Hpre Hq. revert w Hpre Hq.
  induction qpre as [|p qpre IH]; intros w Hpre Hq; simpl.
  - unfold bind, read. simpl.
    destruct (search (backend w) q) eqn:E; [done|]. reflexivity.
  - apply Forall_cons in Hpre as [Hp Hpre].
    unfold bind, read. simpl. rewrite Hp.
    rewrite (IH (log (CallSearch p) w)) by done. simpl.
    by rewrite <- app_assoc.
Qed.

Lemma query_loop_none_yielding entry queries best_track best_score w :
  Forall (yields_nothing (backend w)) queries ->
  query_loop similarity_points entry queries best_track best_score w
  = (Ok (None, []),
     {| backend := backend w;
        calls := calls w ++ (CallSearch <$> queries) |}).
Proof.
  revert w. induction queries as [|p queries IH]; intros w Hall; simpl.
  - unfold ret. rewrite app_nil_r. by destruct w.
  - apply Forall_cons in Hall as [Hp Hall].
    unfold bind, read. simpl. rewrite Hp.
    rewrite (IH (log (CallSearch p) w)) by done. simpl.
    by rewrite <- app_assoc.
Qed.

(** Every run of the query loop ends normally, leaves the backend as it was
    and adds nothing but searches to the log. *)
Lemma query_loop_searches_only entry queries best_track best_score w :
  exists r issued,
    query_loop similarity_points entry queries best_track best_score w
    = (Ok r, {| backend := backend w;
                calls := calls w ++ (CallSearch <$> issued) |})
    /\ forall w', backend w' = backend w ->
         query_loop similarity_points entry queries best_track best_score w'
         = (Ok r, {| backend := backend w';
                     calls := calls w' ++ (CallSearch <$> issued) |}).
Proof.
  revert w. induction queries as [|p queries IH]; intros w.
  - exists (None, []), []. split; [|intros w' _]; simpl; unfold ret;
      rewrite app_nil_r; [by destruct w|by destruct w'].
  - destruct (search (backend w) p) as [|c cs] eqn:E.
    + destruct (IH (log (CallSearch p) w)) as (r & issued & Hrun & Hframe).
      exists r, (p :: issued). split.
      * simpl. unfold bind, read. simpl. rewrite E, Hrun. simpl.
        by rewrite <- app_assoc.
      * intros w' Hw'. rewrite <- Hw' in E.
        simpl. unfold bind, read. simpl. rewrite E.
        rewrite (Hframe (log (CallSearch p) w')) by done. simpl.
        by rewrite <- app_assoc.
    + eexists _, [p]. split.
      * simpl. unfold bind, read. simpl. rewrite E. reflexivity.
      * intros w' Hw'. rewrite <- Hw' in E.
        simpl. unfold bind, read. simpl. rewrite E. reflexivity.
Qed.

End CascadeFacts.

(** C1. The selector issues the queries of the cascade up to the first one
    that yields candidates and no further: its answer is the selection
    among that query's candidates, not found when they all score below the
    thresholds; when no query yields anything the answer is not found. *)
Theorem first_yielding_query_only {B : Type} `{SpotifyClient B}
    (similarity_points : string -> string -> Z) (entry : Entry) (b : B) :
  let r := run (search_track_with_scoring similarity_points entry) b in
  (forall qpre q qpost,
      search_queries entry = qpre ++ q :: qpost ->
      Forall (yields_nothing b) qpre ->
      search b q <> [] ->
      calls r.2 = CallSearch <$> (qpre ++ [q])
      /\ r.1 = Ok (select_candidate similarity_points entry (search b q) None 0)
      /\ (Forall (fun c => score_candidate similarity_points entry c < 50)
                 (search b q) ->
          r.1 = Ok (None, search b q)))
  /\ (Forall (yields_nothing b) (search_queries entry) ->
      r.1 = Ok (None, []) /\ calls r.2 = CallSearch <$> search_queries entry).
Proof.
  intros r. subst r. unfold run, search_track_with_scoring. split.
  - intros qpre q qpost -> Hpre Hq.
    rewrite query_loop_first_yielding by done. simpl.
    repeat split. intros Hpoor. by rewrite select_candidate_all_poor.
  - intros Hall. by rewrite query_loop_none_yielding.
Qed.

Lemma first_yielding_query_only_witness :
  let r := run (search_track_with_scoring zero_similarity layla_entry)
               poor_first_store in
  calls r.2 = [CallSearch (nth_query 0 layla_entry)]
  /\ r.1 = Ok (None, [poor_candidate]).
Proof.
  destruct (first_yielding_query_only zero_similarity layla_entry
              poor_first_store) as [Hfirst _].
  destruct (Hfirst [] (nth_query 0 layla_entry)
              [nth_query 1 layla_entry; nth_query 2 layla_entry;
               nth_query 3 layla_entry])
    as (Hcalls & _ & Hpoor).
  - reflexivity.
  - constructor.
  - discriminate.
  - split; [exact Hcalls|]. apply Hpoor.
    repeat constructor.
Defined.

(** C4. Within the first query that yields candidates, the selector answers
    with the first candidate that scores 85 or more and scores none after
    it; with no such candidate it scores them all and answers with the
    first candidate of highest score when that score is 55 or more, or when
    it is 50 or more and the candidate passes the exact track and artist
    test, and with not found otherwise. *)
Theorem selection_within_first_yielding_query {B : Type} `{SpotifyClient B}
    (similarity_points : string -> string -> Z) (entry : Entry) (b : B)
    (qpre : list string) (q : string) (qpost : list string) :
  let score := score_candidate similarity_points entry in
  let candidates := search b q in
  let out := (run (search_track_with_scoring similarity_points entry) b).1 in
  search_queries entry = qpre ++ q :: qpost ->
  Forall (yields_nothing b) qpre ->
  candidates <> [] ->
  (forall pre c post,
      candidates = pre ++ c :: post ->
      Forall (fun x => score x < 85) pre ->
      85 <= score c ->
      out = Ok (Some (uri c), pre ++ [c]))
  /\ (forall pre best post,
      candidates = pre ++ best :: post ->
      Forall (fun x => score x < 85) candidates ->
      Forall (fun x => score x < score best) pre ->
      Forall (fun x => score x <= score best) post ->
      out = Ok (if 55 <=? score best then Some (uri best)
                else if is_exact_track_artist_match entry best
                        && (50 <=? score best)
                     then Some (uri best)
                     else None,
                candidates)).
Proof.
  intros score candidates out Hqueries Hpre Hq. subst out.
  unfold run, search_track_with_scoring. rewrite Hqueries.
  rewrite query_loop_first_yielding by done. simpl.
  fold candidates. split.
  - intros pre c post -> Hlow Hc. unfold select_candidate.
    by rewrite candidate_loop_return.
  - intros pre best post Hc H85 Hlt Hle. rewrite Hc in *.
    by rewrite select_candidate_best.
Qed.

Lemma selection_within_first_yielding_query_witness :
  (run (search_track_with_scoring zero_similarity layla_entry)
       great_second_store).1
    = Ok (Some "spotify:track:great", [poor_candidate; great_candidate])
  /\ (run (search_track_with_scoring zero_similarity layla_entry)
          decent_store).1
    = Ok (Some "spotify:track:decent",
          [poor_candidate; decent_candidate; poor_candidate]).
Proof.
  split.
  - refine (proj1 (selection_within_first_yielding_query zero_similarity
                     layla_entry great_second_store
                     [nth_query 0 layla_entry] (nth_query 1 layla_entry)
                     [nth_query 2 layla_entry; nth_query 3 layla_entry]
                     _ _ _)
                  [poor_candidate] great_candidate [decent_candidate] _ _ _).
    + reflexivity.
    + repeat constructor.
    + discriminate.
    + reflexivity.
    + repeat constructor.
    + vm_compute. discriminate.
  - refine (proj2 (selection_within_first_yielding_query zero_similarity
                     layla_entry decent_store
                     [] (nth_query 0 layla_entry)
                     [nth_query 1 layla_entry; nth_query 2 layla_entry;
                      nth_query 3 layla_entry]
                     _ _ _)
                  [poor_candidate] decent_candidate [poor_candidate] _ _ _ _).
    + reflexivity.
    + constructor.
    + discriminate.
    + reflexivity.
    + repeat constructor.
    + repeat constructor.
    + repeat constructor; vm_compute; discriminate.
Defined.

(** ** The run-level abort *)

Section AbortFacts.
Context {B : Type} `{SpotifyClient B}.
Variable similarity_points : string -> string -> Z.

(** While no entry resolves, the validation loop only searches and
    [found_uris] stays as it is. *)
Lemma resolve_loop_unresolved entries found_uris not_found w :
  Forall (unresolved similarity_points (backend w)) entries ->
  exists not_found' issued,
    resolve_loop similarity_points entries found_uris not_found w
    = (Ok (found_uris, not_found'),
       {| backend := backend w;
          calls := calls w ++ (CallSearch <$> issued) |}).
Proof.
  revert not_found w.
  induction entries as [|entry entries IH]; intros not_found w Hall.
  - exists not_found, []. simpl. unfold ret. rewrite app_nil_r. by destruct w.
  - apply Forall_cons in Hall as [Hentry Hall].
    destruct (query_loop_searches_only similarity_points entry
                (search_queries entry) None 0
                {| backend := backend w; calls := [] |})
      as (r & issued & Hrun & Hframe).
    unfold unresolved, resolved_uri, run, search_track_with_scoring in Hentry.
    rewrite Hrun in Hentry. simpl in Hentry.
    specialize (Hframe w eq_refl).
    simpl. unfold bind at 1. unfold search_track_with_scoring.
    rewrite Hframe, Hentry.
    destruct (IH (not_found ++ [entry])
                {| backend := backend w;
                   calls := calls w ++ (CallSearch <$> issued) |} Hall)
      as (nf' & issued' & ->).
    exists nf', (issued ++ issued'). simpl.
    by rewrite fmap_app, app_assoc.
Qed.

End AbortFacts.

(** C9. When no entry resolves to an identifier, the run ends with
    [sys.exit(1)] after the searches alone: no playlist is looked up or
    created, no membership is read, nothing is added or removed, and the
    backend is as it was. *)
Theorem abort_before_any_mutation {B : Type} `{SpotifyClient B}
    (similarity_points : string -> string -> Z) (fuel : nat)
    (overwrite : bool) (playlist_name_ : string) (entries : list Entry)
    (b : B) :
  Forall (unresolved similarity_points b) entries ->
  let r := run (main similarity_points fuel overwrite playlist_name_ entries) b in
  r.1 = SysExit 1
  /\ backend r.2 = b
  /\ Forall (fun c => is_search_call c = true) (calls r.2).
Proof.
  intros Hall r. subst r.
  destruct (resolve_loop_unresolved similarity_points entries [] []
              {| backend := b; calls := [] |} Hall)
    as (nf & issued & Hrun).
  assert (run (main similarity_points fuel overwrite playlist_name_ entries) b
          = (SysExit 1, {| backend := b; calls := CallSearch <$> issued |}))
    as ->.
  { unfold run, main, bind at 1. by rewrite Hrun. }
  repeat split. apply Forall_fmap, Forall_true. done.
Qed.

Lemma abort_before_any_mutation_witness :
  let r := run (main zero_similarity 0 true "mix" [layla_entry; santana_entry])
               empty_store in
  r.1 = SysExit 1
  /\ backend r.2 = empty_store
  /\ Forall (fun c => is_search_call c = true) (calls r.2).
Proof.
  apply (abort_before_any_mutation zero_similarity 0 true "mix"
           [layla_entry; santana_entry] empty_store).
  repeat constructor.
Defined.

(** ** Reconciliation *)

Section ReconcileFacts.

Lemma uris_to_add_append_filter found_uris existing_uris :
  uris_to_add false found_uris existing_uris
  = filter (fun u => u ∉ existing_uris) found_uris.
Proof. reflexivity. Qed.

Lemma uris_to_remove_elements overwrite (existing : gset string) :
  uris_to_remove overwrite (elements existing)
  = if overwrite then elements existing else [].
Proof.
  unfold uris_to_remove. destruct overwrite; [|done]. simpl.
  by destruct (elements existing).
Qed.

(** Filtering out the members of a set that holds the whole list leaves
    nothing. *)
Lemma filter_not_in_nil (l : list string) (s : gset string) :
  (forall u, u ∈ l -> u ∈ s) -> filter (fun u => u ∉ s) l = [].
Proof.
  intros Hsub. induction l as [|u l IH]; [done|].
  rewrite filter_cons. destruct (decide (u ∉ s)) as [Hn|_].
  - exfalso. apply Hn, Hsub. left.
  - apply IH. intros v Hv. apply Hsub. by right.
Qed.

End ReconcileFacts.

(** C6, as amended.  In append mode nothing is removed; the additions are
    the desired identifiers that are not in the existing set, in the order
    of the desired list and with every occurrence of a repeated identifier
    kept; and a second run, with the additions of the first folded into the
    existing set, adds nothing. *)
Theorem append_mode_reconcile (desired : list string) (existing : gset string) :
  let plan := reconcile desired existing false in
  to_remove plan = []
  /\ to_add plan = filter (fun u => u ∉ existing) desired
  /\ sublist (to_add plan) desired
  /\ (forall u, u ∈ to_add plan <-> u ∈ desired /\ u ∉ existing)
  /\ (forall u, u ∉ existing ->
        filter (fun v => v = u) (to_add plan) = filter (fun v => v = u) desired)
  /\ to_add (reconcile desired (existing ∪ list_to_set (to_add plan)) false)
     = [].
Proof.
  intros plan. subst plan. unfold reconcile. cbn [to_add to_remove].
  rewrite uris_to_remove_elements, uris_to_add_append_filter.
  split; [done|]. split; [done|]. split; [apply sublist_filter|].
  split; [|split].
  - intros u. rewrite list_elem_of_filter. tauto.
  - intros u Hu. induction desired as [|d desired IH]; [done|].
    rewrite !filter_cons.
    destruct (decide (d ∉ existing)) as [Hd|Hd].
    + rewrite filter_cons. destruct (decide (d = u)); by rewrite IH.
    + destruct (decide (d = u)) as [->|_]; [|done].
      by destruct Hd.
  - apply filter_not_in_nil. intros u Hu.
    destruct (decide (u ∈ existing)) as [He|He].
    + apply elem_of_union. by left.
    + apply elem_of_union. right. apply elem_of_list_to_set.
      by apply list_elem_of_filter.
Qed.

(** C6, as stated, fails: an identifier that occurs twice in the desired
    list and is not in the playlist is added twice. *)
Lemma append_mode_keeps_duplicates :
  to_add (reconcile ["u1"; "u2"; "u1"] ∅ false) = ["u1"; "u2"; "u1"]
  /\ ~ NoDup (to_add (reconcile ["u1"; "u2"; "u1"] ∅ false)).
Proof.
  assert (to_add (reconcile ["u1"; "u2"; "u1"] ∅ false) = ["u1"; "u2"; "u1"])
    as Heq by (vm_compute; reflexivity).
  split; [exact Heq|]. rewrite Heq. intros Hnd.
  apply NoDup_cons in Hnd as [Hnotin _]. apply Hnotin.
  apply list_elem_of_further, list_elem_of_here.
Qed.

(** The plan of overwrite mode: the removals are exactly the existing
    identifiers, each once, and the additions are the whole desired list,
    whatever the playlist held before. *)
Lemma overwrite_mode_reconcile (desired : list string) (existing : gset string) :
  let plan := reconcile desired existing true in
  to_add plan = desired
  /\ NoDup (to_remove plan)
  /\ list_to_set (to_remove plan) = existing
  /\ to_remove plan ≡ₚ elements existing.
Proof.
  intros plan. subst plan. unfold reconcile. simpl.
  rewrite uris_to_remove_elements.
  split; [done|]. split; [apply NoDup_elements|].
  split; [apply list_to_set_elements_L|done].
Qed.

(** The plan of Scenario C: existing [{u1, u2}], desired [[u2; u3]]. *)
Lemma overwrite_mode_scenario_c :
  let plan := reconcile ["u2"; "u3"] {["u1"; "u2"]} true in
  to_add plan = ["u2"; "u3"]
  /\ list_to_set (to_remove plan) = ({["u1"; "u2"]} : gset string).
Proof.
  destruct (overwrite_mode_reconcile ["u2"; "u3"] {["u1"; "u2"]})
    as (Hadd & _ & Hset & _).
  split; [exact Hadd | exact Hset].
Defined.

(** ** What [main] sends to the backend *)

Section MainFacts.
Context {B : Type} `{SpotifyClient B}.
Variable similarity_points : string -> string -> Z.

Lemma remove_batches_run pid batches w :
  exists b',
    remove_batches pid batches w
    = (Ok tt, {| backend := b';
                 calls := calls w ++ (CallRemoveAllOccurrences pid <$> batches) |}).
Proof.
  revert w. induction batches as [|batch batches IH]; intros w; simpl.
  - exists (backend w). unfold ret. rewrite app_nil_r. by destruct w.
  - unfold bind, mutate. simpl.
    match goal with |- context [remove_batches pid batches ?w1] =>
      destruct (IH w1) as (b' & ->) end.
    exists b'. simpl. by rewrite <- app_assoc.
Qed.

Lemma add_batches_run pid batches w :
  exists b',
    add_batches pid batches w
    = (Ok tt, {| backend := b';
                 calls := calls w ++ (CallAddItems pid <$> batches) |}).
Proof.
  revert w. induction batches as [|batch batches IH]; intros w; simpl.
  - exists (backend w). unfold ret. rewrite app_nil_r. by destruct w.
  - unfold bind, mutate. simpl.
    match goal with |- context [add_batches pid batches ?w1] =>
      destruct (IH w1) as (b' & ->) end.
    exists b'. simpl. by rewrite <- app_assoc.
Qed.

Lemma extends_quietly_refl (w : @World B) : extends_quietly w w.
Proof. exists []. by rewrite app_nil_r. Qed.

Lemma extends_quietly_trans (w1 w2 w3 : @World B) :
  extends_quietly w1 w2 -> extends_quietly w2 w3 -> extends_quietly w1 w3.
Proof.
  intros (a1 & E1 & F1) (a2 & E2 & F2). exists (a1 ++ a2).
  rewrite E2, E1, app_assoc. split; [done|]. by apply Forall_app.
Qed.

Lemma extends_quietly_log c (w : @World B) :
  is_sync_call c = false -> extends_quietly w (log c w).
Proof. intros Hc. exists [c]. split; [done|]. by constructor. Qed.

Lemma resolve_loop_quiet entries found_uris not_found w :
  extends_quietly w
    (resolve_loop similarity_points entries found_uris not_found w).2.
Proof.
  revert found_uris not_found w.
  induction entries as [|entry entries IH]; intros found nf w; simpl.
  - apply extends_quietly_refl.
  - destruct (query_loop_searches_only similarity_points entry
                (search_queries entry) None 0 w)
      as (r & issued & Hrun & _).
    unfold bind at 1. unfold search_track_with_scoring. rewrite Hrun.
    set (w1 := {| backend := backend w;
                  calls := calls w ++ (CallSearch <$> issued) |}).
    assert (extends_quietly w w1) as Hw1.
    { exists (CallSearch <$> issued). split; [done|].
      apply Forall_fmap, Forall_true. done. }
    destruct (truthy_opt r.1).
    + unfold bind, subscript. destruct (artist entry); simpl; [|done].
      eapply extends_quietly_trans; [exact Hw1|apply IH].
    + eapply extends_quietly_trans; [exact Hw1|apply IH].
Qed.

Lemma find_playlist_loop_quiet fuel user_id target offset w :
  extends_quietly w (find_playlist_loop fuel user_id target offset w).2.
Proof.
  revert offset w. induction fuel as [|fuel IH]; intros offset w; simpl.
  - apply extends_quietly_refl.
  - unfold bind, read. simpl.
    assert (extends_quietly w (log (CallCurrentUserPlaylists offset) w)) as Hw1
      by by apply extends_quietly_log.
    destruct (List.find _ _); [done|].
    destruct (next _); [|done].
    eapply extends_quietly_trans; [exact Hw1|apply IH].
Qed.

Lemma playlist_uris_loop_quiet fuel pid uris offset w :
  extends_quietly w (playlist_uris_loop fuel pid uris offset w).2.
Proof.
  revert uris offset w. induction fuel as [|fuel IH]; intros uris offset w; simpl.
  - apply extends_quietly_refl.
  - unfold bind, read. simpl.
    assert (extends_quietly w (log (CallPlaylistItems pid offset) w)) as Hw1
      by by apply extends_quietly_log.
    destruct (next _); [|done].
    eapply extends_quietly_trans; [exact Hw1|apply IH].
Qed.

End MainFacts.

(** ** Batches *)

Section BatchFacts.
Context {A : Type}.

Lemma slices_concat (size k : nat) (l : list A) :
  (length l <= k * size)%nat ->
  concat ((fun i => take size (drop i l))
            <$> ((fun j => j * size)%nat <$> seq 0 k)) = l.
Proof.
  revert l. induction k as [|k IH]; intros l Hlen.
  - simpl in *. destruct l; [done|simpl in Hlen; lia].
  - rewrite <- cons_seq, <- fmap_S_seq, !fmap_cons.
    rewrite <- !list_fmap_compose. cbn [concat]. simpl Nat.mul. rewrite drop_0.
    transitivity (take size l ++ drop size l); [|apply take_drop].
    f_equal. rewrite <- (IH (drop size l)) at 1.
    + rewrite <- !list_fmap_compose. f_equal.
      apply list_fmap_ext. intros j x Hx. simpl. by rewrite drop_drop.
    + rewrite length_drop. lia.
Qed.

(** The batches are consecutive slices: put end to end they give the list
    back, in its order. *)
Lemma chunked_concat (l : list A) (size : nat) :
  (0 < size)%nat -> concat (chunked l size) = l.
Proof.
  intros Hsize. unfold chunked, range_step. apply slices_concat.
  pose proof (Nat.div_mod (length l + size - 1) size ltac:(lia)) as Hdm.
  pose proof (Nat.mod_upper_bound (length l + size - 1) size ltac:(lia)).
  nia.
Qed.

(** No batch is longer than the batch size. *)
Lemma chunked_sizes (l : list A) (size : nat) :
  Forall (fun batch => (length batch <= size)%nat) (chunked l size).
Proof.
  unfold chunked. apply Forall_fmap, Forall_true. intros i. simpl.
  rewrite length_take. lia.
Qed.

End BatchFacts.

(** ** The synchronization phase of [main] *)

Section SyncFacts.
Context {B : Type} `{SpotifyClient B}.
Variable similarity_points : string -> string -> Z.

Lemma remove_batches_exact pid batches (w : @World B) :
  remove_batches pid batches w
  = (Ok tt,
     {| backend :=
          foldl (fun b batch =>
                   playlist_remove_all_occurrences_of_items b pid batch)
                (backend w) batches;
        calls := calls w ++ (CallRemoveAllOccurrences pid <$> batches) |}).
Proof.
  revert w. induction batches as [|batch batches IH]; intros w; simpl.
  - unfold ret. rewrite app_nil_r. by destruct w.
  - unfold bind, mutate. simpl. rewrite IH. simpl. by rewrite <- app_assoc.
Qed.

Lemma add_batches_exact pid batches (w : @World B) :
  add_batches pid batches w
  = (Ok tt,
     {| backend :=
          foldl (fun b batch => playlist_add_items b pid batch)
                (backend w) batches;
        calls := calls w ++ (CallAddItems pid <$> batches) |}).
Proof.
  revert w. induction batches as [|batch batches IH]; intros w; simpl.
  - unfold ret. rewrite app_nil_r. by destruct w.
  - unfold bind, mutate. simpl. rewrite IH. simpl. by rewrite <- app_assoc.
Qed.

(** Once the entries are resolved, the playlist is found or created and
    its identifiers are read, [main] runs to its end: it sends the removals
    and then the additions of [reconcile], batch by batch, to that
    playlist, and leaves the backend in the state these calls produce. *)
Lemma main_sync_run fuel overwrite playlist_name_ entries (b : B)
    found_uris not_found w1 user_id w2 found_pl w3 pl w4 existing w5 :
  resolve_loop similarity_points entries [] [] {| backend := b; calls := [] |}
    = (Ok (found_uris, not_found), w1) ->
  found_uris <> [] ->
  get_current_user_id w1 = (Ok user_id, w2) ->
  find_playlist_by_name fuel user_id playlist_name_ w2 = (Ok found_pl, w3) ->
  match found_pl with
  | Some p => ret p
  | None => mutate (CallUserPlaylistCreate user_id playlist_name_)
                   (fun b => user_playlist_create b user_id playlist_name_)
  end w3 = (Ok pl, w4) ->
  get_all_playlist_track_uris fuel (playlist_id pl) w4 = (Ok existing, w5) ->
  let plan := reconcile found_uris existing overwrite in
  let removals := chunked (to_remove plan) REMOVE_BATCH_SIZE in
  let additions := chunked (to_add plan) ADD_BATCH_SIZE in
  run (main similarity_points fuel overwrite playlist_name_ entries) b
  = (Ok tt,
     {| backend :=
          foldl (fun b batch => playlist_add_items b (playlist_id pl) batch)
            (foldl (fun b batch =>
                      playlist_remove_all_occurrences_of_items
                        b (playlist_id pl) batch)
                   (backend w5) removals)
            additions;
        calls := calls w5
                 ++ (CallRemoveAllOccurrences (playlist_id pl) <$> removals)
                 ++ (CallAddItems (playlist_id pl) <$> additions) |}).
Proof.
  intros Hresolve Hfound Huser Hfind Hcreate Hread plan removals additions.
  unfold run, main. unfold bind at 1. rewrite Hresolve. cbn [fst].
  destruct found_uris as [|u found_uris]; [done|]. cbn [is_nil].
  unfold bind at 1. rewrite Huser.
  unfold bind at 1. rewrite Hfind.
  unfold bind at 1. rewrite Hcreate.
  unfold bind at 1. rewrite Hread.
  unfold bind at 1.
  assert ((if overwrite && negb (is_nil (elements existing))
           then remove_batches (playlist_id pl)
                  (chunked (elements existing) REMOVE_BATCH_SIZE)
           else ret tt) w5
          = remove_batches (playlist_id pl) removals w5) as ->.
  { subst removals plan. unfold reconcile, uris_to_remove. cbn [to_remove].
    by destruct (overwrite && negb (is_nil (elements existing))). }
  rewrite remove_batches_exact, add_batches_exact. cbn [backend calls].
  subst additions plan. unfold reconcile. cbn [to_add].
  by rewrite <- app_assoc.
Qed.

(** A run of [main] that reaches its end went through each of these
    phases. *)
Lemma main_phases fuel overwrite playlist_name_ entries (b : B) w :
  run (main similarity_points fuel overwrite playlist_name_ entries) b
    = (Ok tt, w) ->
  exists found_uris not_found w1 user_id w2 found_pl w3 pl w4 existing w5,
    resolve_loop similarity_points entries [] []
      {| backend := b; calls := [] |}
      = (Ok (found_uris, not_found), w1)
    /\ found_uris <> []
    /\ get_current_user_id w1 = (Ok user_id, w2)
    /\ find_playlist_by_name fuel user_id playlist_name_ w2
       = (Ok found_pl, w3)
    /\ match found_pl with
       | Some p => ret p
       | None => mutate (CallUserPlaylistCreate user_id playlist_name_)
                   (fun b => user_playlist_create b user_id playlist_name_)
       end w3 = (Ok pl, w4)
    /\ get_all_playlist_track_uris fuel (playlist_id pl) w4
       = (Ok existing, w5).
Proof.
  unfold run, main. set (w0 := {| backend := b; calls := [] |}).
  unfold bind at 1.
  destruct (resolve_loop similarity_points entries [] [] w0)
    as [[[found nf]| | |] w1]; try done.
  cbn [fst]. destruct found as [|u found]; [done|]. cbn [is_nil].
  unfold bind at 1.
  destruct (get_current_user_id w1) as [[user_id| | |] w2] eqn:Huser;
    try done.
  unfold bind at 1.
  destruct (find_playlist_by_name fuel user_id playlist_name_ w2)
    as [[found_pl| | |] w3] eqn:Hfind; try done.
  unfold bind at 1.
  match goal with |- context [match ?m w3 with _ => _ end] =>
    destruct (m w3) as [[pl| | |] w4] eqn:Hcreate; try done end.
  unfold bind at 1.
  destruct (get_all_playlist_track_uris fuel (playlist_id pl) w4)
    as [[existing| | |] w5] eqn:Hread; try done.
  intros _.
  exists (u :: found), nf, w1, user_id, w2, found_pl, w3, pl, w4, existing, w5.
  split_and!; done.
Qed.

(** None of the phases before the synchronization adds to or removes from
    a playlist. *)
Lemma phases_quiet fuel playlist_name_ entries (b : B)
    found_uris not_found w1 user_id w2 found_pl w3 pl w4 existing w5 :
  resolve_loop similarity_points entries [] [] {| backend := b; calls := [] |}
    = (Ok (found_uris, not_found), w1) ->
  get_current_user_id w1 = (Ok user_id, w2) ->
  find_playlist_by_name fuel user_id playlist_name_ w2 = (Ok found_pl, w3) ->
  match found_pl with
  | Some p => ret p
  | None => mutate (CallUserPlaylistCreate user_id playlist_name_)
                   (fun b => user_playlist_create b user_id playlist_name_)
  end w3 = (Ok pl, w4) ->
  get_all_playlist_track_uris fuel (playlist_id pl) w4 = (Ok existing, w5) ->
  Forall (fun c => is_sync_call c = false) (calls w5).
Proof.
  intros Hresolve Huser Hfind Hcreate Hread.
  pose proof (resolve_loop_quiet similarity_points entries [] []
                {| backend := b; calls := [] |}) as Q1.
  rewrite Hresolve in Q1. cbn [snd] in Q1.
  assert (extends_quietly w1 w2) as Q2.
  { unfold get_current_user_id, read in Huser. injection Huser as _ <-.
    by apply extends_quietly_log. }
  pose proof (find_playlist_loop_quiet fuel user_id
                (normalize_playlist_name playlist_name_) 0 w2) as Q3.
  unfold find_playlist_by_name in Hfind. rewrite Hfind in Q3. cbn [snd] in Q3.
  assert (extends_quietly w3 w4) as Q4.
  { destruct found_pl as [p|].
    - unfold ret in Hcreate. injection Hcreate as _ <-.
      apply extends_quietly_refl.
    - unfold mutate in Hcreate.
      destruct (user_playlist_create _ _ _) as [p b'].
      injection Hcreate as _ <-. eexists [_]. split; [done|].
      by constructor. }
  pose proof (playlist_uris_loop_quiet fuel (playlist_id pl) ∅ 0 w4) as Q5.
  unfold get_all_playlist_track_uris in Hread. rewrite Hread in Q5.
  cbn [snd] in Q5.
  assert (extends_quietly {| backend := b; calls := [] |} w5)
    as (setup & Hsetup & Hquiet).
  { repeat (eapply extends_quietly_trans; [eassumption|]).
    apply extends_quietly_refl. }
  cbn [calls app] in Hsetup. by rewrite Hsetup.
Qed.

(** C7. In overwrite mode, whatever list of identifiers [main] has
    resolved and whatever set it has read from the playlist, it runs to its
    end and the additions and removals it sends are: first the removal,
    batch by batch, of the existing identifiers, each once and all of them
    (no removal at all when the set is empty), then the addition, batch by
    batch, of the whole resolved list in its order, the identifiers that
    were in the playlist included.  These are the lists of [reconcile]. *)
Theorem overwrite_mode_run fuel playlist_name_ entries (b : B)
    desired not_found w1 user_id w2 found_pl w3 pl w4 existing w5 :
  resolve_loop similarity_points entries [] [] {| backend := b; calls := [] |}
    = (Ok (desired, not_found), w1) ->
  desired <> [] ->
  get_current_user_id w1 = (Ok user_id, w2) ->
  find_playlist_by_name fuel user_id playlist_name_ w2 = (Ok found_pl, w3) ->
  match found_pl with
  | Some p => ret p
  | None => mutate (CallUserPlaylistCreate user_id playlist_name_)
                   (fun b => user_playlist_create b user_id playlist_name_)
  end w3 = (Ok pl, w4) ->
  get_all_playlist_track_uris fuel (playlist_id pl) w4 = (Ok existing, w5) ->
  let plan := reconcile desired existing true in
  let removals := chunked (to_remove plan) REMOVE_BATCH_SIZE in
  let additions := chunked (to_add plan) ADD_BATCH_SIZE in
  run (main similarity_points fuel true playlist_name_ entries) b
  = (Ok tt,
     {| backend :=
          foldl (fun b batch => playlist_add_items b (playlist_id pl) batch)
            (foldl (fun b batch =>
                      playlist_remove_all_occurrences_of_items
                        b (playlist_id pl) batch)
                   (backend w5) removals)
            additions;
        calls := calls w5
                 ++ (CallRemoveAllOccurrences (playlist_id pl) <$> removals)
                 ++ (CallAddItems (playlist_id pl) <$> additions) |})
  /\ Forall (fun c => is_sync_call c = false) (calls w5)
  /\ concat removals = elements existing
  /\ to_remove plan = elements existing
  /\ NoDup (concat removals)
  /\ list_to_set (concat removals) = existing
  /\ (removals = [] <-> existing = ∅)
  /\ concat additions = desired
  /\ to_add plan = desired.
Proof.
  intros Hresolve Hdesired Huser Hfind Hcreate Hread plan removals additions.
  assert (to_remove plan = elements existing) as Hrem.
  { subst plan. unfold reconcile. cbn [to_remove].
    apply uris_to_remove_elements. }
  assert (concat removals = elements existing) as Hcat.
  { subst removals. rewrite chunked_concat; [done|].
    unfold REMOVE_BATCH_SIZE. lia. }
  split; [by eapply main_sync_run|].
  split; [by eapply phases_quiet|].
  split; [done|]. split; [done|].
  split; [rewrite Hcat; apply NoDup_elements|].
  split; [rewrite Hcat; apply list_to_set_elements_L|].
  split; [|split; [|done]].
  - split.
    + intros Hnil. rewrite Hnil in Hcat. cbn [concat] in Hcat.
      by apply leibniz_equiv, elements_empty_inv.
    + intros ->. subst removals. rewrite Hrem, elements_empty. reflexivity.
  - subst additions. apply chunked_concat. unfold ADD_BATCH_SIZE. lia.
Qed.

(** X23. A run of [main] that reaches its end, in either mode, has
    resolved a non-empty list of identifiers, found or created the
    playlist and read its set of identifiers without adding or removing
    anything, and has then sent to that playlist the removals and the
    additions that [reconcile] gives for that list and that set, batch by
    batch; the backend is left in the state these calls produce. *)
Theorem main_carries_out_reconcile fuel overwrite playlist_name_ entries
    (b : B) w :
  run (main similarity_points fuel overwrite playlist_name_ entries) b
    = (Ok tt, w) ->
  exists found_uris not_found w1 user_id w2 found_pl w3 pl w4 existing w5,
    resolve_loop similarity_points entries [] []
      {| backend := b; calls := [] |}
      = (Ok (found_uris, not_found), w1)
    /\ found_uris <> []
    /\ get_current_user_id w1 = (Ok user_id, w2)
    /\ find_playlist_by_name fuel user_id playlist_name_ w2
       = (Ok found_pl, w3)
    /\ match found_pl with
       | Some p => ret p
       | None => mutate (CallUserPlaylistCreate user_id playlist_name_)
                   (fun b => user_playlist_create b user_id playlist_name_)
       end w3 = (Ok pl, w4)
    /\ get_all_playlist_track_uris fuel (playlist_id pl) w4
       = (Ok existing, w5)
    /\ Forall (fun c => is_sync_call c = false) (calls w5)
    /\ let plan := reconcile found_uris existing overwrite in
       let removals := chunked (to_remove plan) REMOVE_BATCH_SIZE in
       let additions := chunked (to_add plan) ADD_BATCH_SIZE in
       w = {| backend :=
                foldl (fun b batch =>
                         playlist_add_items b (playlist_id pl) batch)
                  (foldl (fun b batch =>
                            playlist_remove_all_occurrences_of_items
                              b (playlist_id pl) batch)
                         (backend w5) removals)
                  additions;
              calls := calls w5
                       ++ (CallRemoveAllOccurrences (playlist_id pl)
                             <$> removals)
                       ++ (CallAddItems (playlist_id pl) <$> additions) |}.
Proof.
  intros Hrun.
  destruct (main_phases _ _ _ _ _ _ Hrun)
    as (found_uris & not_found & w1 & user_id & w2 & found_pl & w3 & pl & w4
        & existing & w5 & Hresolve & Hfound & Huser & Hfind & Hcreate & Hread).
  exists found_uris, not_found, w1, user_id, w2, found_pl, w3, pl, w4,
    existing, w5.
  split_and!; try done.
  - by eapply phases_quiet.
  - intros plan removals additions.
    pose proof (main_sync_run fuel overwrite playlist_name_ entries b _ _ _ _
                  _ _ _ _ _ _ _ Hresolve Hfound Huser Hfind Hcreate Hread)
      as Hsync.
    cbv zeta in Hsync. rewrite Hrun in Hsync. by injection Hsync.
Qed.

End SyncFacts.

(** ** Runs on concrete inputs *)

Example normalize_example_1 :
  normalize "  Simon &  Garfunkel - S.O.S. " = "simon and garfunkel sos".
Proof. reflexivity. Qed.

Example normalize_example_2 : normalize "AC/DC" = "acdc".
Proof. reflexivity. Qed.

Example normalize_example_3 : normalize " - " = "".
Proof. reflexivity. Qed.

(** On a text that still has its hyphen the pattern does strip the suffix. *)
Example sub_live_suffix_example :
  PyStr.sub_live_suffix "layla - live at the fillmore" = "layla".
Proof. reflexivity. Qed.

Example search_queries_example :
  length (search_queries layla_entry) = 4%nat
  /\ length (search_queries dash_entry) = 3%nat
  /\ length (search_queries {| track := "Layla"; artist := None;
                               album := None |}) = 1%nat.
Proof. repeat split. Qed.

Example chunked_example :
  chunked [1; 2; 3; 4; 5]%nat 2 = [[1; 2]; [3; 4]; [5]]%nat.
Proof. reflexivity. Qed.

Example scores_example :
  score_candidate zero_similarity layla_entry <$>
    [poor_candidate; decent_candidate; great_candidate]
  = [-10; 65; 100].
Proof. reflexivity. Qed.

(** A whole run in append mode: the playlist is created and the one
    resolved track is added. *)
Example main_example :
  let r := run (main zero_similarity 10 false "mix" [layla_entry; santana_entry])
               great_second_store in
  r.1 = Ok tt
  /\ filter (fun c => is_mutation c = true) (calls r.2)
     = [CallUserPlaylistCreate "me" "mix";
        CallAddItems "id:mix" ["spotify:track:great"]].
Proof. split; reflexivity. Qed.

(** ** The exact-match test and the score *)

Lemma artist_loop_member entry_artist l :
  entry_artist ∈ l ->
  artist_loop entry_artist l = Some 40 \/ artist_loop entry_artist l = Some 25.
Proof.
  induction l as [|a l IH]; intros Hin; [by inversion Hin|]. simpl.
  destruct (String.eqb_spec entry_artist a) as [->|Hne]; [by left|].
  destruct (_ || _); [by right|].
  apply IH. inversion Hin; subst; done.
Qed.

(** A candidate that passes [is_exact_track_artist_match] scores 65 or
    more, so it is already accepted by the test on 55. *)
Lemma exact_match_scores_65 (similarity_points : string -> string -> Z)
    (entry : Entry) (cand : Candidate) :
  is_exact_track_artist_match entry cand = true ->
  65 <= score_candidate similarity_points entry cand.
Proof.
  unfold is_exact_track_artist_match.
  destruct (String.eqb_spec (normalize_track_for_matching (track entry))
              (normalize_track_for_matching (name cand))) as [Htrack|];
    [|done].
  simpl. rewrite andb_true_iff, bool_decide_eq_true. intros [Hne Hin].
  rewrite score_candidate_terms, <- Htrack, String.eqb_refl.
  unfold artist_term. rewrite Hne.
  destruct (artist_loop_member _ _ Hin) as [-> | ->];
    repeat match goal with |- context [if ?b then _ else _] => destruct b end;
    lia.
Qed.

(** * Further properties of the program *)

(** ** Album clean-up *)

Section AlbumFacts.
Import PyStr PyStrFacts.

(** A prefix of a text holds only characters of that text. *)
Lemma startswith_all_chars p prefix s :
  startswith prefix s = true ->
  all_chars p s = true -> all_chars p prefix = true.
Proof.
  revert s. induction prefix as [|a prefix IH]; intros s; [done|].
  destruct s as [|b s]; [done|]. simpl.
  rewrite !andb_true_iff. intros [Hab Hpre] [Hb Hs].
  apply Ascii.eqb_eq in Hab. subst b. split; [done|]. by apply (IH s).
Qed.

Lemma startswith_hyphenated_false prefix s :
  all_chars not_punct s = true ->
  startswith (prefix +:+ " - ") s = false.
Proof.
  intros Hs. destruct (startswith (prefix +:+ " - ") s) eqn:E; [|done].
  pose proof (startswith_all_chars _ _ _ E (not_punct_no_hyphen _ Hs)) as Hp.
  rewrite all_chars_app in Hp. apply andb_true_iff in Hp as [_ Hp]. done.
Qed.

End AlbumFacts.

(** X1. [clean_album_name] returns the album as it was given, whatever the
    artist: the prefix it looks for holds a hyphen and the normalized album
    it looks in has none. *)
Theorem clean_album_name_unchanged (album artist : string) :
  clean_album_name album artist = album.
Proof.
  unfold clean_album_name.
  destruct (negb (truthy album) || negb (truthy artist)); [done|].
  by rewrite startswith_hyphenated_false by apply normalize_no_punct.
Qed.

(** ** Range of the score *)

Lemma artist_loop_values entry_artist l :
  artist_loop entry_artist l = None
  \/ artist_loop entry_artist l = Some 40
  \/ artist_loop entry_artist l = Some 25.
Proof.
  induction l as [|a l IH]; simpl; [by left|].
  destruct (String.eqb entry_artist a); [by right; left|].
  destruct (_ || _); [by right; right|]. exact IH.
Qed.

Lemma artist_term_range entry_artist l :
  -10 <= artist_term entry_artist l <= 40.
Proof.
  unfold artist_term. destruct (truthy entry_artist); [|lia].
  destruct (artist_loop_values entry_artist l) as [-> | [-> | ->]]; lia.
Qed.

(** X2. With similarity points between 0 and 30, as [int(ratio * 30)] gives
    them, every score lies between -10 and 115. *)
Theorem score_candidate_range (similarity_points : string -> string -> Z)
    (entry : Entry) (cand : Candidate) :
  (forall a b, 0 <= similarity_points a b <= 30) ->
  -10 <= score_candidate similarity_points entry cand <= 115.
Proof.
  intros Hsim. rewrite score_candidate_terms.
  pose proof (artist_term_range (normalize (get_or_empty (artist entry)))
                (normalize <$> artists cand)).
  pose proof (Hsim (normalize_track_for_matching (name cand))
                   (normalize_track_for_matching (track entry))).
  repeat match goal with |- context [if ?b then _ else _] => destruct b end;
    lia.
Qed.

Lemma score_candidate_range_witness :
  -10 <= score_candidate zero_similarity layla_entry poor_candidate <= 115.
Proof.
  apply (score_candidate_range zero_similarity layla_entry poor_candidate).
  intros a b. unfold zero_similarity. lia.
Defined.

(** ** Shape of the cascade *)

(** The cascade has between one and four queries: the track-only query is
    always there, two more come with a non-empty artist and one more with a
    non-empty album. *)
Lemma search_queries_shape (entry : Entry) :
  ("track:" +:+ dq +:+ track entry +:+ dq) ∈ search_queries entry
  /\ length (search_queries entry)
     = (1 + (if truthy_opt (artist entry) then 2 else 0)
          + (if truthy_opt (album entry) then 1 else 0))%nat
  /\ (1 <= length (search_queries entry) <= 4)%nat.
Proof.
  unfold search_queries.
  destruct (truthy_opt (artist entry)), (truthy_opt (album entry)); simpl;
    (split; [set_solver|split; lia]).
Qed.

(** ** What one resolution sends and what it may answer *)

Section ResolutionFacts.
Context {B : Type} `{SpotifyClient B}.
Variable similarity_points : string -> string -> Z.
Let score := score_candidate similarity_points.

(** The loop over the queries ends normally and leaves the backend alone;
    the searches it logs are a prefix of the queries, not an empty one
    unless there is no query; and its answer is either not found or the
    selection among the candidates of one of the queries. *)
Lemma query_loop_outcome entry queries best_track best_score (w : @World B) :
  exists r issued,
    query_loop similarity_points entry queries best_track best_score w
    = (Ok r, {| backend := backend w;
                calls := calls w ++ (CallSearch <$> issued) |})
    /\ issued `prefix_of` queries
    /\ (queries <> [] -> issued <> [])
    /\ (r = (None, [])
        \/ exists q, q ∈ queries /\ search (backend w) q <> []
             /\ r = select_candidate similarity_points entry
                      (search (backend w) q) best_track best_score).
Proof.
  revert w. induction queries as [|p queries IH]; intros w.
  - exists (None, []), []. simpl. unfold ret. rewrite app_nil_r.
    split_and!; [by destruct w|done|done|by left].
  - destruct (search (backend w) p) as [|c cs] eqn:E.
    + destruct (IH (log (CallSearch p) w))
        as (r & issued & Hrun & Hpre & _ & Hr).
      exists r, (p :: issued). simpl. unfold bind, read. simpl.
      rewrite E, Hrun. simpl. rewrite <- app_assoc.
      split_and!; [done|by apply prefix_cons|done|].
      destruct Hr as [->|(q & Hq & Hne & ->)]; [by left|right].
      exists q. split_and!; [by right|done|done].
    + eexists _, [p]. simpl. unfold bind, read. simpl. rewrite E.
      split_and!; [done|apply prefix_cons, prefix_nil|done|right].
      exists p. rewrite E. split_and!; [left|done|done].
Qed.

(** What the candidate loop returns or remembers is one of the candidates
    it was given, with its score. *)
Lemma candidate_loop_picks entry cands best_track best_score :
  match candidate_loop similarity_points entry cands best_track best_score with
  | (Returned u, _) =>
      exists c, c ∈ cands /\ uri c = u /\ 85 <= score entry c
  | (Exhausted best_track' best_score', _) =>
      (best_track' = best_track /\ best_score' = best_score)
      \/ exists c, c ∈ cands /\ best_track' = Some c
                   /\ best_score' = score entry c
  end.
Proof.
  revert best_track best_score.
  induction cands as [|x cands IH]; intros bt bs; simpl; [by left|].
  fold (score entry x).
  destruct (Z.leb_spec 85 (score entry x)).
  { exists x. repeat split; [left|done]. }
  destruct (bs <? score entry x).
  - specialize (IH (Some x) (score entry x)).
    destruct (candidate_loop _ _ _ _ _) as [[u|bt' bs'] scored].
    + destruct IH as (c & Hc & Hu & Hs). exists c. repeat split; [by right|done..].
    + right. destruct IH as [[-> ->]|(c & Hc & -> & ->)].
      * exists x. repeat split. left.
      * exists c. repeat split. by right.
  - specialize (IH bt bs).
    destruct (candidate_loop _ _ _ _ _) as [[u|bt' bs'] scored].
    + destruct IH as (c & Hc & Hu & Hs). exists c. repeat split; [by right|done..].
    + destruct IH as [[-> ->]|(c & Hc & -> & ->)]; [by left|right].
      exists c. repeat split. by right.
Qed.

Lemma select_candidate_accepts entry cands u scored :
  select_candidate similarity_points entry cands None 0 = (Some u, scored) ->
  exists c, c ∈ cands /\ uri c = u /\ 55 <= score entry c.
Proof.
  unfold select_candidate.
  pose proof (candidate_loop_picks entry cands None 0) as Hpick.
  destruct (candidate_loop _ _ _ _ _) as [[u'|bt bs] scored'].
  - intros [= <- <-]. destruct Hpick as (c & Hc & Hu & Hs).
    exists c. repeat split; [done..|lia].
  - destruct Hpick as [[-> ->]|(c & Hc & -> & ->)]; [done|]. simpl.
    fold (score entry c).
    destruct (Z.leb_spec 55 (score entry c)).
    + intros [= <- <-]. by exists c.
    + destruct (is_exact_track_artist_match entry c) eqn:Hexact; [|done].
      pose proof (exact_match_scores_65 similarity_points entry c Hexact).
      fold (score entry c) in *. lia.
Qed.

End ResolutionFacts.

(** X3. Resolving one entry always ends normally, leaves the backend as it
    was, and sends between one and four calls, all of them searches: the
    first queries of the entry's cascade, in order. *)
Theorem resolution_sends_few_searches {B : Type} `{SpotifyClient B}
    (similarity_points : string -> string -> Z) (entry : Entry) (b : B) :
  exists r issued,
    run (search_track_with_scoring similarity_points entry) b
    = (Ok r, {| backend := b; calls := CallSearch <$> issued |})
    /\ issued `prefix_of` search_queries entry
    /\ (1 <= length issued <= 4)%nat.
Proof.
  unfold run, search_track_with_scoring.
  destruct (query_loop_outcome similarity_points entry (search_queries entry)
              None 0 {| backend := b; calls := [] |})
    as (r & issued & Hrun & Hpre & Hne & _).
  exists r, issued. split; [exact Hrun|]. split; [exact Hpre|].
  destruct (search_queries_shape entry) as (_ & _ & Hlen).
  apply prefix_length in Hpre.
  assert (issued <> []) as Hissued.
  { apply Hne. intros Hq. rewrite Hq in Hlen. simpl in Hlen. lia. }
  destruct issued; [done|]. simpl in *. lia.
Qed.

(** X4. An identifier the selector answers with is the uri of a candidate
    that one of the entry's queries returned, and that candidate scores 55
    or more. *)
Theorem resolved_uri_is_a_good_candidate {B : Type} `{SpotifyClient B}
    (similarity_points : string -> string -> Z) (entry : Entry) (b : B)
    (u : string) :
  resolved_uri similarity_points b entry = Some u ->
  exists q c,
    q ∈ search_queries entry /\ c ∈ search b q /\ uri c = u
    /\ 55 <= score_candidate similarity_points entry c.
Proof.
  unfold resolved_uri, run, search_track_with_scoring.
  destruct (query_loop_outcome similarity_points entry (search_queries entry)
              None 0 {| backend := b; calls := [] |})
    as (r & issued & -> & _ & _ & Hr).
  simpl. destruct Hr as [->|(q & Hq & _ & ->)]; [done|].
  destruct (select_candidate _ _ _ _ _) as [found scored] eqn:Hsel.
  simpl. intros ->.
  destruct (select_candidate_accepts similarity_points entry _ _ _ Hsel)
    as (c & Hc & Hu & Hs).
  by exists q, c.
Qed.

Lemma resolved_uri_is_a_good_candidate_witness :
  exists q c,
    q ∈ search_queries layla_entry /\ c ∈ search great_second_store q
    /\ uri c = "spotify:track:great"
    /\ 55 <= score_candidate zero_similarity layla_entry c.
Proof.
  apply (resolved_uri_is_a_good_candidate zero_similarity layla_entry
           great_second_store "spotify:track:great").
  reflexivity.
Defined.

(** X5. On the best candidate and its score, the test on an exact track and
    artist match never changes the decision: it comes down to the score
    being 55 or more. *)
Theorem exact_match_test_is_redundant
    (similarity_points : string -> string -> Z)
    (entry : Entry) (best : Candidate) :
  accept_best entry (Some best) (score_candidate similarity_points entry best)
  = if 55 <=? score_candidate similarity_points entry best
    then Some (uri best) else None.
Proof.
  unfold accept_best.
  destruct (Z.leb_spec 55 (score_candidate similarity_points entry best));
    [done|].
  destruct (is_exact_track_artist_match entry best) eqn:Hexact; [|done].
  pose proof (exact_match_scores_65 similarity_points entry best Hexact). lia.
Qed.

(** ** Canonical form of normalized text *)

(** X6. Normalized text is a fixed point of every step of [normalize] taken
    alone: lower-casing, the replacement of the ampersand, the removal of
    dots, slashes and hyphens, the collapsing of whitespace and the
    stripping of both ends all leave it as it is. *)
Theorem normalize_output_canonical (s : string) :
  let t := normalize s in
  PyStr.lower t = t
  /\ PyStr.replace_char "&" "and" t = t
  /\ PyStr.remove_class is_punct t = t
  /\ PyStr.collapse_ws t = t
  /\ PyStr.strip t = t.
Proof.
  intros t. subst t. rewrite normalize_unfold.
  destruct (PyStr.is_empty s); [done|].
  split_and!.
  - apply PyStrFacts.lower_fixed, normalize_steps_lowered.
  - apply PyStrFacts.replace_char_fixed, normalize_steps_no_amp.
  - apply PyStrFacts.remove_class_fixed, normalize_steps_no_punct.
  - apply PyStrFacts.collapse_from_fixed, normalize_steps_single_spaced.
  - unfold normalize_steps. apply PyStrFacts.strip_idem.
Qed.

(** ** Playlist names *)

Section PlaylistNameFacts.
Import PyStr PyStrFacts.

Lemma is_space_lower_char c : is_space (lower_char c) = is_space c.
Proof. destruct c as [[] [] [] [] [] [] [] []]; reflexivity. Qed.

Lemma is_empty_lower s : is_empty (lower s) = is_empty s.
Proof. by destruct s. Qed.

Lemma lstrip_lower s : lstrip (lower s) = lower (lstrip s).
Proof.
  induction s as [|x s IH]; simpl; [done|].
  rewrite is_space_lower_char. by destruct (is_space x).
Qed.

Lemma rstrip_lower s : rstrip (lower s) = lower (rstrip s).
Proof.
  induction s as [|x s IH]; simpl; [done|].
  rewrite is_space_lower_char, IH, is_empty_lower.
  by destruct (is_space x && is_empty (rstrip s)).
Qed.

Lemma strip_lower s : strip (lower s) = lower (strip s).
Proof. unfold strip. by rewrite lstrip_lower, rstrip_lower. Qed.

Lemma collapse_from_no_leading_space s :
  no_leading_space s = true ->
  no_leading_space (collapse_from false s) = true.
Proof.
  destruct s as [|x s]; simpl; [done|].
  destruct (is_space x) eqn:E; [done|]. simpl. by rewrite E.
Qed.

Lemma collapse_from_empty b s : collapse_from b s = "" -> rstrip s = "".
Proof.
  revert b. induction s as [|x s IH]; intros b; simpl; [done|].
  destruct (is_space x); [|done]. destruct b; [|done].
  intros Hs. by rewrite (IH true Hs).
Qed.

Lemma rstrip_collapse_from b s :
  rstrip s = s -> rstrip (collapse_from b s) = collapse_from b s.
Proof.
  revert b. induction s as [|x s IH]; intros b; simpl; [done|].
  destruct (is_space x) eqn:E; simpl.
  - destruct (is_empty (rstrip s)) eqn:Hempty; [done|].
    intros [= Hs]. destruct b; [by apply IH|]. simpl.
    rewrite (IH true Hs).
    destruct (is_empty (collapse_from true s)) eqn:Hc; [|done].
    destruct (collapse_from true s) eqn:Hcs; [|done].
    rewrite (collapse_from_empty _ _ Hcs) in Hempty. done.
  - intros [= Hs]. rewrite E. by rewrite (IH false Hs).
Qed.

Lemma collapse_strip_stripped s :
  strip (collapse_ws (strip s)) = collapse_ws (strip s).
Proof.
  unfold strip at 1, collapse_ws. rewrite lstrip_fixed.
  - apply rstrip_collapse_from. unfold strip. apply rstrip_idem.
  - apply collapse_from_no_leading_space.
    unfold strip. apply rstrip_no_leading_space, lstrip_no_leading_space.
Qed.

End PlaylistNameFacts.

(** X7. [normalize_playlist_name] is idempotent, so the comparison of
    playlist names in [find_playlist_by_name] sees a name and its
    normalized form as the same. *)
Theorem normalize_playlist_name_idempotent (name_ : string) :
  normalize_playlist_name (normalize_playlist_name name_)
  = normalize_playlist_name name_.
Proof.
  unfold normalize_playlist_name.
  rewrite <- (strip_lower name_).
  set (t := PyStr.collapse_ws (PyStr.strip (PyStr.lower name_))).
  assert (PyStr.strip t = t) as -> by apply collapse_strip_stripped.
  assert (PyStr.lower t = t) as ->.
  { apply PyStrFacts.lower_fixed. unfold t, PyStr.collapse_ws.
    apply PyStrFacts.collapse_from_all; [done|].
    apply PyStrFacts.strip_all, PyStrFacts.lower_all_lowered. }
  apply PyStrFacts.collapse_from_fixed, PyStrFacts.collapse_from_single_spaced.
Qed.

(** ** Batches *)

Lemma range_step_below (stop step i : nat) :
  (0 < step)%nat -> i ∈ range_step stop step -> (i < stop)%nat.
Proof.
  intros Hstep. unfold range_step.
  intros (k & -> & Hk)%list_elem_of_fmap. apply elem_of_seq in Hk.
  pose proof (Nat.div_mod (stop + step - 1) step ltac:(lia)) as Hdm.
  pose proof (Nat.mod_upper_bound (stop + step - 1) step ltac:(lia)).
  nia.
Qed.

(** X8. For a positive batch size, [chunked] cuts the list into consecutive
    batches: put end to end they give the list back, none is empty and none
    is longer than the batch size. *)
Theorem chunked_partitions {A : Type} (l : list A) (size : nat) :
  (0 < size)%nat ->
  concat (chunked l size) = l
  /\ Forall (fun batch => (0 < length batch <= size)%nat) (chunked l size).
Proof.
  intros Hsize. split; [by apply chunked_concat|].
  unfold chunked. apply Forall_fmap, Forall_forall. intros i Hi. simpl.
  apply range_step_below in Hi; [|done].
  rewrite length_take, length_drop. lia.
Qed.

Lemma chunked_partitions_witness :
  concat (chunked ["a"; "b"; "c"; "d"; "e"] 2) = ["a"; "b"; "c"; "d"; "e"]
  /\ Forall (fun batch => (0 < length batch <= 2)%nat)
            (chunked ["a"; "b"; "c"; "d"; "e"] 2).
Proof.
  apply (chunked_partitions ["a"; "b"; "c"; "d"; "e"] 2). lia.
Defined.

(** ** Outcomes of [main] *)

Section OutcomeFacts.
Context {B : Type} `{SpotifyClient B}.
Variable similarity_points : string -> string -> Z.

Ltac quiet_stop Q :=
  let added := fresh "added" in
  let Hadded := fresh "Hadded" in
  let Hquiet := fresh "Hquiet" in
  intros [= <- <-];
  destruct Q as (added & Hadded & Hquiet);
  exists added; split;
  [exact Hquiet | left; split; [discriminate | exact Hadded]].

(** Every run of [main] first sends calls that are neither additions nor
    removals; a run that does not reach the end sends nothing else, and a
    run that does goes on with the batches of removals, then those of
    additions. *)
Lemma main_outcomes fuel overwrite playlist_name_ entries (b : B) res w :
  run (main similarity_points fuel overwrite playlist_name_ entries) b
    = (res, w) ->
  exists setup,
    Forall (fun c => is_sync_call c = false) setup
    /\ ((res <> Ok tt /\ calls w = setup)
        \/ (res = Ok tt /\ exists pid found_uris existing,
              let plan := reconcile found_uris existing overwrite in
              calls w
              = setup
                ++ (CallRemoveAllOccurrences pid
                      <$> chunked (to_remove plan) REMOVE_BATCH_SIZE)
                ++ (CallAddItems pid <$> chunked (to_add plan) ADD_BATCH_SIZE))).
Proof.
  unfold run, main.
  set (w0 := {| backend := b; calls := [] |}).
  unfold bind at 1.
  pose proof (resolve_loop_quiet similarity_points entries [] [] w0) as Q1.
  destruct (resolve_loop similarity_points entries [] [] w0)
    as [[[found nf]| | |] w1]; simpl in Q1 |- *;
    [|quiet_stop Q1..].
  destruct (is_nil found); [quiet_stop Q1|].
  unfold bind at 1, get_current_user_id, read at 1.
  set (w2 := log CallCurrentUser w1).
  assert (extends_quietly w0 w2) as Q2.
  { eapply extends_quietly_trans; [exact Q1|]. by apply extends_quietly_log. }
  unfold bind at 1, find_playlist_by_name.
  pose proof (find_playlist_loop_quiet fuel (current_user (backend w1))
                (normalize_playlist_name playlist_name_) 0 w2) as Q3.
  apply (extends_quietly_trans _ _ _ Q2) in Q3.
  destruct (find_playlist_loop fuel _ _ 0 w2) as [[found_pl| | |] w3];
    simpl in Q3 |- *; [|quiet_stop Q3..].
  unfold bind at 1.
  set (create := mutate _ _).
  assert (exists pl w4, match found_pl with Some p => ret p | None => create end w3
                        = (Ok pl, w4) /\ extends_quietly w0 w4)
    as (pl & w4 & -> & Q4).
  { destruct found_pl as [p|].
    - by exists p, w3.
    - subst create. unfold mutate.
      destruct (user_playlist_create _ _ _) as [p b'].
      eexists p, _. split; [done|].
      eapply extends_quietly_trans; [exact Q3|].
      eexists [_]. split; [done|]. by constructor. }
  unfold bind at 1, get_all_playlist_track_uris.
  pose proof (playlist_uris_loop_quiet fuel (playlist_id pl) ∅ 0 w4) as Q5.
  apply (extends_quietly_trans _ _ _ Q4) in Q5.
  destruct (playlist_uris_loop fuel _ _ 0 w4) as [[existing| | |] w5];
    simpl in Q5 |- *; [|quiet_stop Q5..].
  destruct Q5 as (setup & Hsetup & Hquiet). simpl in Hsetup.
  unfold bind at 1.
  assert (exists b6,
            (if overwrite && negb (is_nil (elements existing))
             then remove_batches (playlist_id pl)
                    (chunked (elements existing) REMOVE_BATCH_SIZE)
             else ret tt) w5
            = (Ok tt,
               {| backend := b6;
                  calls := calls w5
                    ++ (CallRemoveAllOccurrences (playlist_id pl)
                          <$> chunked (uris_to_remove overwrite (elements existing))
                                      REMOVE_BATCH_SIZE) |}))
    as (b6 & ->).
  { unfold uris_to_remove.
    destruct (overwrite && negb (is_nil (elements existing))).
    - apply remove_batches_run.
    - exists (backend w5). unfold ret. simpl. rewrite app_nil_r. by destruct w5. }
  match goal with |- context [add_batches ?p ?bs ?w6] =>
    destruct (add_batches_run p bs w6) as (b7 & ->) end.
  intros [= <- <-]. exists setup. split; [done|]. right. split; [done|].
  exists (playlist_id pl), found, existing. simpl.
  by rewrite Hsetup, <- app_assoc.
Qed.

(** While entries do not resolve, the validation loop goes on to the next
    one with [found_uris] as it was. *)
Lemma resolve_loop_skip_unresolved pre rest found_uris not_found (w : @World B) :
  Forall (unresolved similarity_points (backend w)) pre ->
  exists not_found' issued,
    resolve_loop similarity_points (pre ++ rest) found_uris not_found w
    = resolve_loop similarity_points rest found_uris not_found'
        {| backend := backend w;
           calls := calls w ++ (CallSearch <$> issued) |}.
Proof.
  revert not_found w.
  induction pre as [|entry pre IH]; intros not_found w Hall.
  - exists not_found, []. simpl. rewrite app_nil_r. by destruct w.
  - apply Forall_cons in Hall as [Hentry Hall].
    destruct (query_loop_searches_only similarity_points entry
                (search_queries entry) None 0
                {| backend := backend w; calls := [] |})
      as (r & issued & Hrun & Hframe).
    unfold unresolved, resolved_uri, run, search_track_with_scoring in Hentry.
    rewrite Hrun in Hentry. simpl in Hentry.
    specialize (Hframe w eq_refl).
    simpl. unfold bind at 1. unfold search_track_with_scoring.
    rewrite Hframe, Hentry.
    destruct (IH (not_found ++ [entry])
                {| backend := backend w;
                   calls := calls w ++ (CallSearch <$> issued) |} Hall)
      as (nf' & issued' & ->).
    exists nf', (issued ++ issued'). simpl.
    by rewrite fmap_app, app_assoc.
Qed.

End OutcomeFacts.

(** X9. A run of [main] that does not reach its end, whether it stops by
    [sys.exit], by a [KeyError] or in a pagination loop, has sent no
    addition and no removal. *)
Theorem main_stops_before_sync {B : Type} `{SpotifyClient B}
    (similarity_points : string -> string -> Z) (fuel : nat)
    (overwrite : bool) (playlist_name_ : string) (entries : list Entry)
    (b : B) :
  let r := run (main similarity_points fuel overwrite playlist_name_ entries) b in
  r.1 <> Ok tt ->
  Forall (fun c => is_sync_call c = false) (calls r.2).
Proof.
  intros r Hstop. subst r.
  destruct (run _ b) as [res w] eqn:Hrun. simpl in Hstop |- *.
  destruct (main_outcomes similarity_points _ _ _ _ _ _ _ Hrun)
    as (setup & Hquiet & [[_ ->]|[Hok _]]); done.
Qed.

(** X10. In append mode no run of [main], whatever its outcome, sends a
    removal. *)
Theorem append_mode_never_removes {B : Type} `{SpotifyClient B}
    (similarity_points : string -> string -> Z) (fuel : nat)
    (playlist_name_ : string) (entries : list Entry) (b : B) :
  Forall (fun c => is_removal_call c = false)
    (calls (run (main similarity_points fuel false playlist_name_ entries) b).2).
Proof.
  assert (forall l, Forall (fun c => is_sync_call c = false) l ->
                    Forall (fun c => is_removal_call c = false) l) as Hweak.
  { intros l Hl. eapply Forall_impl; [exact Hl|]. by intros []. }
  destruct (run _ b) as [res w] eqn:Hrun. simpl.
  destruct (main_outcomes similarity_points _ _ _ _ _ _ _ Hrun)
    as (setup & Hquiet & [[_ ->]|[_ (pid & found & existing & ->)]]).
  - by apply Hweak.
  - simpl. apply Forall_app. split; [by apply Hweak|].
    apply Forall_fmap, Forall_true. done.
Qed.

(** X11. When the first entry that resolves has no ["artist"] key, [main]
    ends with a [KeyError] on that key, after searches alone and with the
    backend as it was. *)
Theorem main_key_error_on_missing_artist {B : Type} `{SpotifyClient B}
    (similarity_points : string -> string -> Z) (fuel : nat)
    (overwrite : bool) (playlist_name_ : string)
    (pre : list Entry) (entry : Entry) (post : list Entry) (b : B) :
  Forall (unresolved similarity_points b) pre ->
  truthy_opt (resolved_uri similarity_points b entry) = true ->
  artist entry = None ->
  let r := run (main similarity_points fuel overwrite playlist_name_
                  (pre ++ entry :: post)) b in
  r.1 = KeyError "artist"
  /\ backend r.2 = b
  /\ Forall (fun c => is_search_call c = true) (calls r.2).
Proof.
  intros Hpre Hentry Hartist r. subst r.
  destruct (resolve_loop_skip_unresolved similarity_points pre (entry :: post)
              [] [] {| backend := b; calls := [] |} Hpre)
    as (nf & issued & Hskip).
  destruct (query_loop_searches_only similarity_points entry
              (search_queries entry) None 0 {| backend := b; calls := [] |})
    as (r & issued' & Hrun & Hframe).
  unfold resolved_uri, run, search_track_with_scoring in Hentry.
  rewrite Hrun in Hentry. simpl in Hentry.
  assert (run (main similarity_points fuel overwrite playlist_name_
                 (pre ++ entry :: post)) b
          = (KeyError "artist",
             {| backend := b;
                calls := CallSearch <$> (issued ++ issued') |})) as ->.
  { unfold run, main. unfold bind at 1. rewrite Hskip.
    cbn [resolve_loop backend calls app].
    unfold bind at 1. unfold search_track_with_scoring.
    match goal with |- context [query_loop _ _ _ _ _ ?w1] =>
      rewrite (Hframe w1 eq_refl) end.
    rewrite Hentry, Hartist. simpl. by rewrite fmap_app. }
  split_and!; [done..|]. apply Forall_fmap, Forall_true. done.
Qed.

Lemma main_stops_before_sync_witness :
  let r := run (main zero_similarity 0 true "mix" [layla_entry])
               great_second_store in
  r.1 = OutOfFuel
  /\ Forall (fun c => is_sync_call c = false) (calls r.2).
Proof.
  split; [reflexivity|].
  apply (main_stops_before_sync zero_similarity 0 true "mix" [layla_entry]
           great_second_store).
  discriminate.
Defined.

(** An entry without an artist that resolves through its album. *)
Lemma main_key_error_on_missing_artist_witness :
  (run (main zero_similarity 10 false "mix"
          [santana_entry;
           {| track := "Layla"; artist := None;
              album := Some "Layla and Other Assorted Love Songs" |};
           layla_entry])
       great_second_store).1
  = KeyError "artist".
Proof.
  refine (proj1 (main_key_error_on_missing_artist zero_similarity 10 false "mix"
                   [santana_entry]
                   {| track := "Layla"; artist := None;
                      album := Some "Layla and Other Assorted Love Songs" |}
                   [layla_entry] great_second_store _ _ _)).
  - repeat constructor.
  - reflexivity.
  - reflexivity.
Defined.

(** Scenario C of the specification, run by [main]: the playlist holds
    [u1] and [u2], the entries resolve to [u2] and [u3]. *)
Lemma overwrite_mode_run_witness :
  let r := run (main zero_similarity 10 true "Mix"
                  [janet_entry; santana_entry]) scenario_c_store in
  r.1 = Ok tt
  /\ filter (fun c => is_sync_call c = true) (calls r.2)
     = [CallRemoveAllOccurrences "p" ["u1"; "u2"];
        CallAddItems "p" ["u2"; "u3"]]
  /\ store_members (backend r.2) "p" = ["u2"; "u3"].
Proof.
  edestruct (overwrite_mode_run zero_similarity 10 "Mix"
               [janet_entry; santana_entry] scenario_c_store)
    as (Hrun & _);
    [vm_compute; reflexivity|discriminate|vm_compute; reflexivity
    |vm_compute; reflexivity|vm_compute; reflexivity
    |vm_compute; reflexivity|].
  cbv zeta. rewrite Hrun. vm_compute. split_and!; reflexivity.
Defined.

(** The same playlist and entries in append mode. *)
Lemma main_carries_out_reconcile_witness :
  let w := (run (main zero_similarity 10 false "Mix"
                   [janet_entry; santana_entry]) scenario_c_store).2 in
  exists found_uris not_found w1 user_id w2 found_pl w3 pl w4 existing w5,
    resolve_loop zero_similarity [janet_entry; santana_entry] [] []
      {| backend := scenario_c_store; calls := [] |}
      = (Ok (found_uris, not_found), w1)
    /\ found_uris <> []
    /\ get_current_user_id w1 = (Ok user_id, w2)
    /\ find_playlist_by_name 10 user_id "Mix" w2 = (Ok found_pl, w3)
    /\ match found_pl with
       | Some p => ret p
       | None => mutate (CallUserPlaylistCreate user_id "Mix")
                   (fun b => user_playlist_create b user_id "Mix")
       end w3 = (Ok pl, w4)
    /\ get_all_playlist_track_uris 10 (playlist_id pl) w4
       = (Ok existing, w5)
    /\ Forall (fun c => is_sync_call c = false) (calls w5)
    /\ let plan := reconcile found_uris existing false in
       let removals := chunked (to_remove plan) REMOVE_BATCH_SIZE in
       let additions := chunked (to_add plan) ADD_BATCH_SIZE in
       w = {| backend :=
                foldl (fun b batch =>
                         playlist_add_items b (playlist_id pl) batch)
                  (foldl (fun b batch =>
                            playlist_remove_all_occurrences_of_items
                              b (playlist_id pl) batch)
                         (backend w5) removals)
                  additions;
              calls := calls w5
                       ++ (CallRemoveAllOccurrences (playlist_id pl)
                             <$> removals)
                       ++ (CallAddItems (playlist_id pl) <$> additions) |}.
Proof.
  intros w.
  apply (main_carries_out_reconcile zero_similarity 10 false "Mix"
           [janet_entry; santana_entry] scenario_c_store).
  reflexivity.
Defined.

(** ** Pagination loops *)

Section PaginationFacts.
Context {B : Type} `{SpotifyClient B}.

Lemma page_offsets_cons first step n :
  page_offsets first step (S n)
  = first :: page_offsets (first + step) step n.
Proof.
  unfold page_offsets. rewrite <- cons_seq, <- fmap_S_seq.
  rewrite fmap_cons, <- list_fmap_compose. f_equal; [lia|].
  apply list_fmap_ext. intros _ k _. cbn [compose]. lia.
Qed.

Lemma page_offsets_0 first step : page_offsets first step 0 = [first].
Proof. unfold page_offsets. cbn [seq fmap list_fmap]. f_equal. lia. Qed.

(** A run of the playlist search that ends normally has read the pages at
    offsets [offset], [offset + 50], ... up to some page [n]; the pages
    before it hold no match and announce a next page; page [n] holds the
    answer, or holds no match and is the last. *)
Lemma find_playlist_loop_result fuel user_id target offset (w : @World B)
    res w' :
  find_playlist_loop fuel user_id target offset w = (Ok res, w') ->
  backend w' = backend w
  /\ exists n,
      calls w' = calls w
                 ++ (CallCurrentUserPlaylists <$> page_offsets offset 50 n)
      /\ (forall k, (k < n)%nat ->
            next (current_user_playlists (backend w) (offset + 50 * k)) = true
            /\ List.find (playlist_matches user_id target)
                 (items (current_user_playlists (backend w) (offset + 50 * k)))
               = None)
      /\ match res with
         | Some p =>
             List.find (playlist_matches user_id target)
               (items (current_user_playlists (backend w) (offset + 50 * n)))
             = Some p
         | None =>
             List.find (playlist_matches user_id target)
               (items (current_user_playlists (backend w) (offset + 50 * n)))
             = None
             /\ next (current_user_playlists (backend w) (offset + 50 * n))
                = false
         end.
Proof.
  revert offset w. induction fuel as [|fuel IH]; intros offset w; [done|].
  cbn [find_playlist_loop]. unfold bind, read. cbn [backend calls log].
  destruct (List.find _ _) as [p|] eqn:Hfind.
  - intros [= <- <-]. split; [done|]. exists 0%nat.
    rewrite page_offsets_0, Nat.mul_0_r, Nat.add_0_r.
    split_and!; [done|intros k Hk; lia|done].
  - destruct (next _) eqn:Hnext.
    + intros Hrun. apply IH in Hrun as (Hb & n & Hcalls & Hbefore & Hres).
      cbn [backend calls log] in Hb, Hcalls, Hbefore, Hres. split; [done|].
      exists (S n). split_and!.
      * rewrite Hcalls, page_offsets_cons, fmap_cons, <- app_assoc. done.
      * intros [|k] Hk.
        -- by rewrite Nat.mul_0_r, Nat.add_0_r.
        -- replace (offset + 50 * S k)%nat with (offset + 50 + 50 * k)%nat by lia.
           apply Hbefore. lia.
      * replace (offset + 50 * S n)%nat with (offset + 50 + 50 * n)%nat by lia.
        exact Hres.
    + intros [= <- <-]. split; [done|]. exists 0%nat.
      rewrite page_offsets_0, Nat.mul_0_r, Nat.add_0_r.
      split_and!; [done|intros k Hk; lia|done..].
Qed.

(** With a last page within reach of the fuel, the search ends normally. *)
Lemma find_playlist_loop_terminates fuel user_id target offset (w : @World B) n :
  (n < fuel)%nat ->
  next (current_user_playlists (backend w) (offset + 50 * n)) = false ->
  exists res w', find_playlist_loop fuel user_id target offset w = (Ok res, w').
Proof.
  revert offset w n. induction fuel as [|fuel IH]; intros offset w n Hn Hlast;
    [lia|].
  cbn [find_playlist_loop]. unfold bind, read. cbn [backend calls log].
  destruct (List.find _ _) as [p|]; [by eexists _, _|].
  destruct (next (current_user_playlists (backend w) offset)) eqn:Hnext;
    [|by eexists _, _].
  destruct n as [|n]; [by rewrite Nat.mul_0_r, Nat.add_0_r, Hnext in Hlast|].
  apply (IH _ _ n); [lia|]. cbn [backend log].
  by replace (offset + 50 + 50 * n)%nat with (offset + 50 * S n)%nat by lia.
Qed.

(** What [add_item_uris] holds afterwards. *)
Lemma elem_of_add_item_uris (uris : gset string) page_items u :
  u ∈ add_item_uris uris page_items
  <-> u ∈ uris \/ (Some u ∈ page_items /\ truthy u = true).
Proof.
  unfold add_item_uris. revert uris.
  induction page_items as [|item page_items IH]; intros uris; simpl.
  - split; [by left|]. intros [?|[Hin _]]; [done|]. by inversion Hin.
  - rewrite IH, elem_of_cons. destruct item as [v|].
    + destruct (truthy v) eqn:Hv.
      * rewrite elem_of_union, elem_of_singleton. split.
        -- intros [[?| ->]|[? ?]]; [by left|right|right]; split; auto.
        -- intros [?|[[[= ->]|?] ?]]; [by left; left|by left; right|by right].
      * split.
        -- intros [?|[? ?]]; [by left|right]; split; auto.
        -- intros [?|[[[= ->]|?] ?]]; [by left|congruence|by right].
    + split.
      * intros [?|[? ?]]; [by left|right]; split; auto.
      * intros [?|[[?|?] ?]]; [by left|done|by right].
Qed.

(** A run of the membership fetch that ends normally has read the pages at
    offsets [offset], [offset + 100], ... up to the first page that announces
    no next one, and holds what it held before together with the non-empty
    uris of those pages. *)
Lemma playlist_uris_loop_result fuel pid uris offset (w : @World B) res w' :
  playlist_uris_loop fuel pid uris offset w = (Ok res, w') ->
  backend w' = backend w
  /\ exists n,
      calls w' = calls w ++ (CallPlaylistItems pid <$> page_offsets offset 100 n)
      /\ (forall k, (k < n)%nat ->
            next (playlist_items (backend w) pid (offset + 100 * k)) = true)
      /\ next (playlist_items (backend w) pid (offset + 100 * n)) = false
      /\ forall u,
           u ∈ res
           <-> u ∈ uris
               \/ exists k, (k <= n)%nat
                    /\ Some u ∈ items (playlist_items (backend w) pid
                                         (offset + 100 * k))
                    /\ truthy u = true.
Proof.
  revert uris offset w. induction fuel as [|fuel IH]; intros uris offset w;
    [done|].
  cbn [playlist_uris_loop]. unfold bind, read. cbn [backend calls log].
  destruct (next _) eqn:Hnext.
  - intros Hrun. apply IH in Hrun as (Hb & n & Hcalls & Hbefore & Hlast & Hres).
    cbn [backend calls log] in Hb, Hcalls, Hbefore, Hlast, Hres.
    split; [done|].
    exists (S n). split_and!.
    + rewrite Hcalls, page_offsets_cons, fmap_cons, <- app_assoc. done.
    + intros [|k] Hk.
      * by rewrite Nat.mul_0_r, Nat.add_0_r.
      * replace (offset + 100 * S k)%nat with (offset + 100 + 100 * k)%nat by lia.
        apply Hbefore. lia.
    + by replace (offset + 100 * S n)%nat with (offset + 100 + 100 * n)%nat by lia.
    + intros u. rewrite Hres, elem_of_add_item_uris. split.
      * intros [[?|[Hin Hu]]|(k & Hk & Hin & Hu)].
        -- by left.
        -- right. exists 0%nat. rewrite Nat.mul_0_r, Nat.add_0_r.
           split_and!; [lia|done..].
        -- right. exists (S k).
           replace (offset + 100 * S k)%nat with (offset + 100 + 100 * k)%nat by lia.
           split_and!; [lia|done..].
      * intros [?|([|k] & Hk & Hin & Hu)].
        -- by left; left.
        -- rewrite Nat.mul_0_r, Nat.add_0_r in Hin. by left; right.
        -- right. exists k.
           replace (offset + 100 * S k)%nat with (offset + 100 + 100 * k)%nat
             in Hin by lia.
           split_and!; [lia|done..].
  - intros [= <- <-]. split; [done|]. exists 0%nat.
    rewrite page_offsets_0, Nat.mul_0_r, Nat.add_0_r.
    split_and!; [done|intros k Hk; lia|done|].
    intros u. rewrite elem_of_add_item_uris. split.
    + intros [?|[Hin Hu]]; [by left|]. right. exists 0%nat.
      rewrite Nat.mul_0_r, Nat.add_0_r. split_and!; [lia|done..].
    + intros [?|(k & Hk & Hin & Hu)]; [by left|].
      assert (k = 0)%nat as -> by lia.
      rewrite Nat.mul_0_r, Nat.add_0_r in Hin. by right.
Qed.

Lemma playlist_uris_loop_terminates fuel pid uris offset (w : @World B) n :
  (n < fuel)%nat ->
  next (playlist_items (backend w) pid (offset + 100 * n)) = false ->
  exists res w', playlist_uris_loop fuel pid uris offset w = (Ok res, w').
Proof.
  revert uris offset w n.
  induction fuel as [|fuel IH]; intros uris offset w n Hn Hlast; [lia|].
  cbn [playlist_uris_loop]. unfold bind, read. cbn [backend calls log].
  destruct (next (playlist_items (backend w) pid offset)) eqn:Hnext;
    [|by eexists _, _].
  destruct n as [|n]; [by rewrite Nat.mul_0_r, Nat.add_0_r, Hnext in Hlast|].
  apply (IH _ _ _ n); [lia|]. cbn [backend log].
  by replace (offset + 100 + 100 * n)%nat with (offset + 100 * S n)%nat by lia.
Qed.

End PaginationFacts.

(** X12. A playlist search that ends normally has only read pages of the
    user's playlists, 50 apart from offset 0, and left the backend alone.
    A playlist it answers with is on the last page read, is owned by the
    user and has the normalized name asked for; when it answers with none,
    the last page read announces no next page and no playlist on any page
    read is both owned by the user and of that normalized name. *)
Theorem find_playlist_by_name_answer {B : Type} `{SpotifyClient B}
    (fuel : nat) (user_id name_ : string) (b : B)
    (res : option Playlist) (w : @World B) :
  run (find_playlist_by_name fuel user_id name_) b = (Ok res, w) ->
  backend w = b
  /\ exists n,
      calls w = CallCurrentUserPlaylists <$> page_offsets 0 50 n
      /\ match res with
         | Some p =>
             p ∈ items (current_user_playlists b (50 * n))
             /\ owner_id p = user_id
             /\ normalize_playlist_name (playlist_name p)
                = normalize_playlist_name name_
         | None =>
             next (current_user_playlists b (50 * n)) = false
             /\ forall k q,
                  (k <= n)%nat ->
                  q ∈ items (current_user_playlists b (50 * k)) ->
                  ~ (owner_id q = user_id
                     /\ normalize_playlist_name (playlist_name q)
                        = normalize_playlist_name name_)
         end.
Proof.
  unfold run, find_playlist_by_name. intros Hrun.
  apply find_playlist_loop_result in Hrun as (Hb & n & Hcalls & Hbefore & Hres).
  cbn [backend calls] in *. split; [done|]. exists n.
  split; [done|]. destruct res as [p|].
  - apply find_some in Hres as [Hin Hmatch].
    unfold playlist_matches in Hmatch.
    apply andb_true_iff in Hmatch as [Hname Howner].
    apply String.eqb_eq in Hname, Howner.
    split_and!; [by apply list_elem_of_In|done..].
  - destruct Hres as [Hnone Hlast]. split; [done|].
    intros k q Hk Hq [Howner Hname].
    assert (List.find (playlist_matches user_id (normalize_playlist_name name_))
              (items (current_user_playlists b (50 * k))) = None) as Hk_none.
    { destruct (decide (k = n)) as [->|Hne]; [done|].
      apply (Hbefore k). lia. }
    apply list_elem_of_In in Hq.
    pose proof (find_none _ _ Hk_none q Hq) as Hno.
    unfold playlist_matches in Hno.
    rewrite Hname, Howner, !String.eqb_refl in Hno. done.
Qed.

Lemma find_playlist_by_name_answer_witness :
  exists n,
    calls (run (find_playlist_by_name 3 "me" "My Mix") mix_store).2
      = CallCurrentUserPlaylists <$> page_offsets 0 50 n
    /\ owner_id {| playlist_id := "p1"; playlist_name := "  my   MIX ";
                   owner_id := "me" |} = "me".
Proof.
  destruct (find_playlist_by_name_answer 3 "me" "My Mix" mix_store
              (Some {| playlist_id := "p1"; playlist_name := "  my   MIX ";
                       owner_id := "me" |})
              (run (find_playlist_by_name 3 "me" "My Mix") mix_store).2)
    as (_ & n & Hcalls & _ & Howner & _).
  - reflexivity.
  - exists n. split; [exact Hcalls | exact Howner].
Defined.

(** X13. The playlist search ends normally as soon as the fuel reaches a
    page that announces no next one. *)
Theorem find_playlist_by_name_terminates {B : Type} `{SpotifyClient B}
    (fuel : nat) (user_id name_ : string) (b : B) (n : nat) :
  (n < fuel)%nat ->
  next (current_user_playlists b (50 * n)) = false ->
  exists res w, run (find_playlist_by_name fuel user_id name_) b = (Ok res, w).
Proof.
  intros Hn Hlast. unfold run, find_playlist_by_name.
  by apply (find_playlist_loop_terminates _ _ _ _ _ n).
Qed.

Lemma find_playlist_by_name_terminates_witness :
  exists res w,
    run (find_playlist_by_name 1 "me" "My Mix") mix_store = (Ok res, w).
Proof.
  apply (find_playlist_by_name_terminates 1 "me" "My Mix" mix_store 0).
  - lia.
  - reflexivity.
Defined.

(** X14. A membership fetch that ends normally has only read pages of the
    playlist's items, 100 apart from offset 0, up to the first page that
    announces no next one, and left the backend alone.  The set it answers
    with holds exactly the non-empty uris of the items on those pages. *)
Theorem get_all_playlist_track_uris_answer {B : Type} `{SpotifyClient B}
    (fuel : nat) (pid : string) (b : B) (uris : gset string) (w : @World B) :
  run (get_all_playlist_track_uris fuel pid) b = (Ok uris, w) ->
  backend w = b
  /\ exists n,
      calls w = CallPlaylistItems pid <$> page_offsets 0 100 n
      /\ (forall k, (k < n)%nat -> next (playlist_items b pid (100 * k)) = true)
      /\ next (playlist_items b pid (100 * n)) = false
      /\ forall u,
           u ∈ uris
           <-> u <> ""
               /\ exists k, (k <= n)%nat
                    /\ Some u ∈ items (playlist_items b pid (100 * k)).
Proof.
  unfold run, get_all_playlist_track_uris. intros Hrun.
  apply playlist_uris_loop_result in Hrun
    as (Hb & n & Hcalls & Hbefore & Hlast & Hres).
  cbn [backend calls] in *. split; [done|]. exists n.
  split_and!; [done..|].
  intros u. rewrite Hres. split.
  - intros [Hempty|(k & Hk & Hin & Hu)]; [by apply not_elem_of_empty in Hempty|].
    split; [by destruct u|]. by exists k.
  - intros [Hu (k & Hk & Hin)]. right. exists k.
    split_and!; [done..|]. by destruct u.
Qed.

Lemma get_all_playlist_track_uris_answer_witness :
  "u2" ∈ ({["u1"; "u2"]} : gset string)
  <-> "u2" <> ""
      /\ exists k, (k <= 0)%nat
           /\ Some "u2" ∈ items (playlist_items mix_store "p1" (100 * k)).
Proof.
  destruct (get_all_playlist_track_uris_answer 2 "p1" mix_store
              {["u1"; "u2"]}
              (run (get_all_playlist_track_uris 2 "p1") mix_store).2)
    as (_ & n & Hcalls & _ & _ & Huris).
  - vm_compute. reflexivity.
  - assert (n = 0)%nat as -> by (destruct n as [|[|n]]; [done|discriminate..]).
    apply Huris.
Defined.

(** X15. The membership fetch ends normally as soon as the fuel reaches a
    page that announces no next one. *)
Theorem get_all_playlist_track_uris_terminates {B : Type} `{SpotifyClient B}
    (fuel : nat) (pid : string) (b : B) (n : nat) :
  (n < fuel)%nat ->
  next (playlist_items b pid (100 * n)) = false ->
  exists uris w, run (get_all_playlist_track_uris fuel pid) b = (Ok uris, w).
Proof.
  intros Hn Hlast. unfold run, get_all_playlist_track_uris.
  by apply (playlist_uris_loop_terminates _ _ _ _ _ n).
Qed.

Lemma get_all_playlist_track_uris_terminates_witness :
  exists uris w,
    run (get_all_playlist_track_uris 1 "p1") mix_store = (Ok uris, w).
Proof.
  apply (get_all_playlist_track_uris_terminates 1 "p1" mix_store 0).
  - lia.
  - reflexivity.
Defined.

(** ** The parser *)

Section ParserFacts.

Lemma parse_step_insignificant st raw_line :
  insignificant raw_line = true -> parse_step st raw_line = st.
Proof. unfold insignificant, parse_step. by intros ->. Qed.

Lemma parse_step_malformed st raw_line :
  malformed raw_line = true ->
  parse_step st raw_line
  = {| ps_entries := ps_entries st; ps_seen_keys := ps_seen_keys st;
       ps_skipped_lines := S (ps_skipped_lines st) |}.
Proof.
  unfold malformed, insignificant, parse_step.
  rewrite andb_true_iff, negb_true_iff, bool_decide_eq_true.
  by intros [-> ->].
Qed.

(** What a turn of the loop does to the entries and the seen keys depends
    on the state through the seen keys only. *)
Lemma parse_step_entries st raw_line :
  (ps_entries (parse_step st raw_line) = ps_entries st
   /\ ps_seen_keys (parse_step st raw_line) = ps_seen_keys st)
  \/ (exists parts,
        parts = parse_line (PyStr.strip raw_line)
        /\ is_Some (parts !! "track")
        /\ (dedup_key parts ∉ ps_seen_keys st)
        /\ ps_entries (parse_step st raw_line) = ps_entries st ++ [parts]
        /\ ps_seen_keys (parse_step st raw_line)
           = ps_seen_keys st ∪ {[dedup_key parts]}).
Proof.
  unfold parse_step.
  destruct (_ || _); [by left|].
  destruct (parse_line _ !! "track") as [t|] eqn:Htrack; [|by left].
  case_bool_decide as Hseen; [by left|]. right.
  eexists. split_and!; [done|by rewrite Htrack|done..].
Qed.

Lemma parse_step_invariant st raw_line :
  parse_invariant st -> parse_invariant (parse_step st raw_line).
Proof.
  intros (Hseen & Hnodup & Htracks).
  destruct (parse_step_entries st raw_line)
    as [[He Hs]|(parts & _ & Htrack & Hfresh & He & Hs)];
    unfold parse_invariant; rewrite He, Hs; [done|].
  rewrite fmap_app, list_to_set_app_L. simpl.
  split_and!.
  - by rewrite Hseen, union_empty_r_L.
  - apply NoDup_app. split_and!; [done| |apply NoDup_singleton].
    intros k Hk ->%list_elem_of_singleton. apply Hfresh.
    rewrite Hseen. by apply elem_of_list_to_set.
  - apply Forall_app. split; [done|]. by constructor.
Qed.

Lemma foldl_parse_step_invariant lines st :
  parse_invariant st -> parse_invariant (foldl parse_step st lines).
Proof.
  revert st. induction lines as [|raw lines IH]; intros st Hst; [done|].
  simpl. by apply IH, parse_step_invariant.
Qed.

Lemma parse_invariant_init :
  parse_invariant
    {| ps_entries := []; ps_seen_keys := ∅; ps_skipped_lines := 0 |}.
Proof. split_and!; [done|constructor|constructor]. Qed.

Lemma parse_step_absorbed st raw_line :
  absorbed (ps_seen_keys st) raw_line ->
  ps_entries (parse_step st raw_line) = ps_entries st
  /\ ps_seen_keys (parse_step st raw_line) = ps_seen_keys st.
Proof.
  intros [Hins|Habs]; [by rewrite parse_step_insignificant|].
  destruct (parse_step_entries st raw_line)
    as [?|(parts & -> & [t Htrack] & Hfresh & _)]; [done|].
  destruct Habs as [Hnone|Hseen]; [congruence|done].
Qed.

Lemma parse_step_absorbs st raw_line :
  absorbed (ps_seen_keys (parse_step st raw_line)) raw_line.
Proof.
  unfold absorbed.
  destruct (insignificant raw_line) eqn:Hins; [by left|right].
  destruct (parse_line _ !! "track") as [t|] eqn:Htrack; [right|by left].
  unfold parse_step. unfold insignificant in Hins. rewrite Hins, Htrack.
  case_bool_decide as Hseen; [done|]. simpl. set_solver.
Qed.

Lemma parse_step_seen_grows st raw_line :
  ps_seen_keys st ⊆ ps_seen_keys (parse_step st raw_line).
Proof.
  destruct (parse_step_entries st raw_line)
    as [[_ ->]|(parts & _ & _ & _ & _ & ->)]; set_solver.
Qed.

Lemma absorbed_mono seen seen' raw_line :
  seen ⊆ seen' -> absorbed seen raw_line -> absorbed seen' raw_line.
Proof. intros Hsub [?|[?|?]]; [by left|by right; left|right; right]. set_solver. Qed.

Lemma foldl_parse_step_seen_grows lines st :
  ps_seen_keys st ⊆ ps_seen_keys (foldl parse_step st lines).
Proof.
  revert st. induction lines as [|raw lines IH]; intros st; [done|].
  simpl. etrans; [apply parse_step_seen_grows|apply IH].
Qed.

Lemma foldl_parse_step_absorbs lines st raw_line :
  raw_line ∈ lines ->
  absorbed (ps_seen_keys (foldl parse_step st lines)) raw_line.
Proof.
  revert st. induction lines as [|raw lines IH]; intros st Hin;
    [by inversion Hin|].
  simpl. apply elem_of_cons in Hin as [->|Hin]; [|by apply IH].
  eapply absorbed_mono; [apply foldl_parse_step_seen_grows|].
  apply parse_step_absorbs.
Qed.

Lemma foldl_parse_step_absorbed lines st :
  Forall (absorbed (ps_seen_keys st)) lines ->
  ps_entries (foldl parse_step st lines) = ps_entries st
  /\ ps_seen_keys (foldl parse_step st lines) = ps_seen_keys st.
Proof.
  revert st. induction lines as [|raw lines IH]; intros st Hall; [done|].
  apply Forall_cons in Hall as [Hraw Hall]. simpl.
  destruct (parse_step_absorbed st raw Hraw) as [He Hs].
  rewrite <- He, <- Hs. apply IH. by rewrite Hs.
Qed.

Lemma foldl_parse_step_skipped lines st :
  ps_skipped_lines (foldl parse_step st lines)
  = (ps_skipped_lines st
     + length (filter (fun raw => malformed raw = true) lines))%nat.
Proof.
  revert st. induction lines as [|raw lines IH]; intros st; simpl; [lia|].
  rewrite IH, filter_cons.
  destruct (malformed raw) eqn:Hmal.
  - rewrite parse_step_malformed by done.
    rewrite decide_True by done. simpl. lia.
  - rewrite decide_False by done. f_equal.
    unfold malformed in Hmal. unfold parse_step.
    destruct (insignificant raw) eqn:Hins.
    + unfold insignificant in Hins. by rewrite Hins.
    + unfold insignificant in Hins. rewrite Hins.
      simpl in Hmal. apply bool_decide_eq_false in Hmal.
      destruct (parse_line _ !! "track"); [|done].
      by case_bool_decide.
Qed.

End ParserFacts.

(** X16. The entries the parser returns all have a track field and are
    pairwise distinct in their triple of lower-cased artist, album and
    track. *)
Theorem parse_txt_playlist_distinct (lines : list string) :
  NoDup (dedup_key <$> parse_txt_playlist lines)
  /\ Forall (fun parts => is_Some (parts !! "track"))
            (parse_txt_playlist lines).
Proof.
  destruct (foldl_parse_step_invariant lines _ parse_invariant_init)
    as (_ & Hnodup & Htracks).
  by split.
Qed.

(** X17. Blank lines and lines that start with [#], whitespace around them
    aside, change nothing: parsing the file without them gives the same
    entries and the same count of skipped lines. *)
Theorem parse_lines_ignores_comments (lines : list string) :
  parse_lines (filter (fun raw => insignificant raw = false) lines)
  = parse_lines lines.
Proof.
  unfold parse_lines.
  generalize {| ps_entries := []; ps_seen_keys := ∅; ps_skipped_lines := 0 |}.
  induction lines as [|raw lines IH]; intros st; [done|].
  rewrite filter_cons. destruct (insignificant raw) eqn:Hins.
  - rewrite decide_False by done. simpl.
    by rewrite parse_step_insignificant.
  - rewrite decide_True by done. simpl. apply IH.
Qed.

(** X18. Lines that occur earlier in the file add no entry: with more
    lines appended that are all among the first ones, the parser returns
    the same entries. *)
Theorem parse_txt_playlist_repeated_lines (lines more : list string) :
  more ⊆ lines ->
  parse_txt_playlist (lines ++ more) = parse_txt_playlist lines.
Proof.
  intros Hsub. unfold parse_txt_playlist, parse_lines. rewrite foldl_app.
  apply foldl_parse_step_absorbed, Forall_forall.
  intros raw Hraw. by apply foldl_parse_step_absorbs, Hsub.
Qed.

Lemma parse_txt_playlist_repeated_lines_witness :
  parse_txt_playlist (["track:A artist:B"; "track:C"] ++ ["track:C"])
  = parse_txt_playlist ["track:A artist:B"; "track:C"].
Proof.
  apply (parse_txt_playlist_repeated_lines
           ["track:A artist:B"; "track:C"] ["track:C"]).
  intros raw ->%list_elem_of_singleton.
  apply list_elem_of_further, list_elem_of_here.
Defined.

(** X19. The count of skipped lines is the number of lines that are
    neither blank nor comments and have no track field, repeated lines
    counted each time. *)
Theorem parse_lines_skipped_count (lines : list string) :
  ps_skipped_lines (parse_lines lines)
  = length (filter (fun raw => malformed raw = true) lines).
Proof. unfold parse_lines. by rewrite foldl_parse_step_skipped. Qed.

(** ** The two line formats *)

Section FormatFacts.
Import PyStr PyStrFacts.

Lemma append_cons c (s t : string) : String c s +:+ t = String c (s +:+ t).
Proof. reflexivity. Qed.

Lemma length_append (s t : string) :
  String.length (s +:+ t) = (String.length s + String.length t)%nat.
Proof.
  induction s as [|c s IH]; [done|].
  rewrite append_cons. cbn [String.length]. by rewrite IH.
Qed.

Lemma append_empty_r (s : string) : s +:+ "" = s.
Proof. induction s as [|c s IH]; [done|]. by rewrite append_cons, IH. Qed.

Lemma append_assoc (s t u : string) : (s +:+ t) +:+ u = s +:+ (t +:+ u).
Proof. induction s as [|c s IH]; [done|]. by rewrite !append_cons, IH. Qed.

(** A value without a colon is taken whole when the pattern can stop right
    after it. *)
Lemma value_from_app v x rest :
  all_chars (is_not ":") v = true ->
  value_from x = Some ("", rest) ->
  value_from (v +:+ x) = Some (v, rest).
Proof.
  intros Hv Hx. induction v as [|c v IH]; [done|].
  simpl in Hv. apply andb_true_iff in Hv as [Hc Hv].
  unfold is_not in Hc. apply negb_true_iff in Hc.
  rewrite append_cons. cbn [value_from]. by rewrite Hc, (IH Hv).
Qed.

Lemma value_match_app v x rest :
  v <> "" ->
  all_chars (is_not ":") v = true ->
  value_from x = Some ("", rest) ->
  value_match (v +:+ x) = Some (v, rest).
Proof.
  intros Hne Hv Hx. unfold value_match.
  rewrite (value_from_app _ _ _ Hv Hx). by destruct v.
Qed.

(** The search that follows a match starts where the match ended. *)
Lemma finditer_from_skip passed s :
  finditer_from (String.length passed) (passed +:+ s) = finditer_from 0 s.
Proof. induction passed as [|c passed IH]; [done|]. exact IH. Qed.

Lemma finditer_from_match c s key value rest passed :
  match_at (String c s) = Some (key, value, rest) ->
  s = passed +:+ rest ->
  finditer_from 0 (String c s) = (key, value) :: finditer_from 0 rest.
Proof.
  intros Hmatch ->. cbn [finditer_from]. rewrite Hmatch. f_equal.
  replace (String.length (String c (passed +:+ rest)) - String.length rest - 1)%nat
    with (String.length passed).
  - apply finditer_from_skip.
  - cbn [String.length]. rewrite length_append. lia.
Qed.

Lemma finditer_from_no_match c s :
  match_at (String c s) = None ->
  finditer_from 0 (String c s) = finditer_from 0 s.
Proof. intros Hmatch. cbn [finditer_from]. by rewrite Hmatch. Qed.

(** The matches on a line of the three fields in the order track, artist,
    album. *)
Lemma finditer_three_fields t a b :
  t <> "" -> a <> "" -> b <> "" ->
  all_chars (is_not ":") t = true ->
  all_chars (is_not ":") a = true ->
  all_chars (is_not ":") b = true ->
  finditer ("track:" +:+ t +:+ " artist:" +:+ a +:+ " album:" +:+ b)
  = [("track", t); ("artist", a); ("album", b)].
Proof.
  intros Ht Ha Hb Htc Hac Hbc. unfold finditer.
  set (tail2 := " album:" +:+ b).
  set (tail1 := " artist:" +:+ a +:+ tail2).
  assert (value_from tail1 = Some ("", tail1)) as Hv1 by reflexivity.
  assert (value_from tail2 = Some ("", tail2)) as Hv2 by reflexivity.
  assert (value_from "" = Some ("", "")) as Hv3 by reflexivity.
  (* track *)
  change ("track:" +:+ t +:+ tail1)
    with (String "t" ("rack:" +:+ t +:+ tail1)).
  rewrite (finditer_from_match "t" ("rack:" +:+ t +:+ tail1) "track" t tail1
             ("rack:" +:+ t)).
  2:{ unfold match_at.
      change (key_at (String "t" ("rack:" +:+ t +:+ tail1)))
        with (Some ("track", t +:+ tail1)).
      cbv beta iota.
      by rewrite (value_match_app t tail1 tail1). }
  2:{ by rewrite append_assoc. }
  f_equal.
  (* the space before artist *)
  change tail1 with (String " " (String "a" ("rtist:" +:+ a +:+ tail2))).
  rewrite finditer_from_no_match by reflexivity.
  (* artist *)
  rewrite (finditer_from_match "a" ("rtist:" +:+ a +:+ tail2) "artist" a tail2
             ("rtist:" +:+ a)).
  2:{ unfold match_at.
      change (key_at (String "a" ("rtist:" +:+ a +:+ tail2)))
        with (Some ("artist", a +:+ tail2)).
      cbv beta iota.
      by rewrite (value_match_app a tail2 tail2). }
  2:{ by rewrite append_assoc. }
  f_equal.
  (* the space before album *)
  change tail2 with (String " " (String "a" ("lbum:" +:+ b))).
  rewrite finditer_from_no_match by reflexivity.
  (* album *)
  rewrite (finditer_from_match "a" ("lbum:" +:+ b) "album" b ""
             ("lbum:" +:+ b)).
  2:{ unfold match_at.
      change (key_at (String "a" ("lbum:" +:+ b))) with (Some ("album", b)).
      cbv beta iota.
      rewrite <- (append_empty_r b) at 1.
      by rewrite (value_match_app b "" ""). }
  2:{ by rewrite append_empty_r. }
  done.
Qed.

(** *** The pipe-separated format *)

Lemma contains_char_app c x y :
  contains (String c "") (x +:+ String c y) = true.
Proof.
  induction x as [|d x IH].
  - cbn [String.append]. change ("" +:+ String c y) with (String c y).
    cbn [contains startswith]. by rewrite Ascii.eqb_refl.
  - rewrite append_cons. cbn [contains]. rewrite IH. apply orb_true_r.
Qed.

(** A text without the separator in front of one joins the first piece. *)
Lemma split_char_app sep x y :
  all_chars (is_not sep) x = true ->
  split_char sep (x +:+ String sep y) = x :: split_char sep y.
Proof.
  intros Hx. induction x as [|c x IH].
  - change ("" +:+ String sep y) with (String sep y).
    cbn [split_char]. by rewrite Ascii.eqb_refl.
  - simpl in Hx. apply andb_true_iff in Hx as [Hc Hx].
    unfold is_not in Hc. apply negb_true_iff in Hc.
    rewrite append_cons. cbn [split_char]. by rewrite Hc, (IH Hx).
Qed.

Lemma split_char_whole sep x :
  all_chars (is_not sep) x = true -> split_char sep x = [x].
Proof.
  intros Hx. induction x as [|c x IH]; [done|].
  simpl in Hx. apply andb_true_iff in Hx as [Hc Hx].
  unfold is_not in Hc. apply negb_true_iff in Hc.
  cbn [split_char]. by rewrite Hc, (IH Hx).
Qed.

Lemma rstrip_app_space x : rstrip (x +:+ " ") = rstrip x.
Proof.
  induction x as [|c x IH]; [done|].
  rewrite append_cons. cbn [rstrip]. by rewrite IH.
Qed.

Lemma rstrip_cons_fixed c x : rstrip (String c x) = String c x -> rstrip x = x.
Proof.
  cbn [rstrip]. destruct (is_space c && is_empty (rstrip x)); [done|].
  by intros [= ->].
Qed.

Lemma rstrip_app_fixed p x :
  rstrip p = p -> rstrip x = x -> rstrip (p +:+ x) = p +:+ x.
Proof.
  intros Hp Hx. induction p as [|c p IH]; [done|].
  pose proof (rstrip_cons_fixed _ _ Hp) as Hp'.
  rewrite append_cons. cbn [rstrip]. rewrite (IH Hp').
  cbn [rstrip] in Hp. rewrite Hp' in Hp.
  destruct (is_space c) eqn:Hc; [|done].
  destruct p; [|done]. destruct x; done.
Qed.

Lemma strip_fixed_rstrip x : strip x = x -> rstrip x = x.
Proof. intros Hx. rewrite <- Hx at 1. unfold strip. by rewrite rstrip_idem. Qed.

Lemma strip_fixed_lstrip x : strip x = x -> lstrip x = x.
Proof.
  intros Hx. apply lstrip_fixed. rewrite <- Hx. unfold strip.
  apply rstrip_no_leading_space, lstrip_no_leading_space.
Qed.

Lemma all_chars_append p x y :
  all_chars p x = true -> all_chars p y = true ->
  all_chars p (x +:+ y) = true.
Proof. intros Hx Hy. by rewrite all_chars_app, Hx, Hy. Qed.

(** The keys and values of a line of the three fields in the order artist,
    album, track. *)
Lemma pipe_parts_three_fields a b c :
  all_chars (is_not "|") a = true ->
  all_chars (is_not "|") b = true ->
  all_chars (is_not "|") c = true ->
  strip a = a -> strip b = b -> strip c = c ->
  pipe_parts ("artist=" +:+ a +:+ " | album=" +:+ b +:+ " | track=" +:+ c)
  = <["track" := c]> (<["album" := b]> (<["artist" := a]> ∅)).
Proof.
  intros Ha Hb Hc Hsa Hsb Hsc. unfold pipe_parts.
  replace ("artist=" +:+ a +:+ " | album=" +:+ b +:+ " | track=" +:+ c)
    with (("artist=" +:+ a +:+ " ")
            +:+ String "|" ((" album=" +:+ b +:+ " ")
                              +:+ String "|" (" track=" +:+ c)))
    by (by rewrite !append_assoc).
  rewrite split_char_app by (repeat apply all_chars_append; done).
  rewrite split_char_app by (repeat apply all_chars_append; done).
  rewrite split_char_whole by (repeat apply all_chars_append; done).
  cbn [fmap list_fmap foldl].
  assert (strip ("artist=" +:+ a +:+ " ") = "artist=" +:+ a) as ->.
  { unfold strip. change (lstrip ("artist=" +:+ a +:+ " "))
      with ("artist=" +:+ a +:+ " ").
    rewrite <- append_assoc, rstrip_app_space.
    apply rstrip_app_fixed; [done|by apply strip_fixed_rstrip]. }
  assert (strip (" album=" +:+ b +:+ " ") = "album=" +:+ b) as ->.
  { unfold strip. change (lstrip (" album=" +:+ b +:+ " "))
      with ("album=" +:+ b +:+ " ").
    rewrite <- append_assoc, rstrip_app_space.
    apply rstrip_app_fixed; [done|by apply strip_fixed_rstrip]. }
  assert (strip (" track=" +:+ c) = "track=" +:+ c) as ->.
  { unfold strip. change (lstrip (" track=" +:+ c)) with ("track=" +:+ c).
    apply rstrip_app_fixed; [done|by apply strip_fixed_rstrip]. }
  unfold pipe_segment.
  change (split_once "=" ("artist=" +:+ a)) with (Some ("artist", a)).
  change (split_once "=" ("album=" +:+ b)) with (Some ("album", b)).
  change (split_once "=" ("track=" +:+ c)) with (Some ("track", c)).
  cbv beta iota.
  change (lower (strip "artist")) with "artist".
  change (lower (strip "album")) with "album".
  change (lower (strip "track")) with "track".
  by rewrite Hsa, Hsb, Hsc.
Qed.

End FormatFacts.

Section SingleLineFacts.
Import PyStr PyStrFacts.

(** A file of one line that is read and has a track gives one entry. *)
Lemma parse_txt_playlist_single raw_line line parts :
  strip raw_line = line ->
  is_empty line || startswith "#" line = false ->
  parse_line line = parts ->
  is_Some (parts !! "track") ->
  parse_txt_playlist [raw_line] = [parts].
Proof.
  intros Hstrip Hsig Hparts [t Htrack].
  unfold parse_txt_playlist, parse_lines. cbn [foldl]. unfold parse_step.
  rewrite Hstrip, Hsig, Hparts, Htrack. cbn [ps_seen_keys].
  rewrite bool_decide_eq_false_2 by apply not_elem_of_empty. done.
Qed.

Lemma entry_of_three_fields (t a b : string) (parts : gmap string string) :
  parts !! "track" = Some t ->
  parts !! "artist" = Some a ->
  parts !! "album" = Some b ->
  entry_of_parts parts = {| track := t; artist := Some a; album := Some b |}.
Proof. unfold entry_of_parts. by intros -> -> ->. Qed.

End SingleLineFacts.

(** X20. A line [track:T artist:A album:B], as the docstring of the parser
    gives it, is read back field by field: when the three values are not
    empty, hold no colon and have no whitespace at their ends, and the line
    does not hold both a pipe and an equals sign, a file of that line
    alone, with or without whitespace around it, gives the one entry with
    track T, artist A and album B. *)
Theorem key_value_line_round_trip (t a b : string) :
  let line := "track:" +:+ t +:+ " artist:" +:+ a +:+ " album:" +:+ b in
  t <> "" -> a <> "" -> b <> "" ->
  PyStr.all_chars (PyStr.is_not ":") t = true ->
  PyStr.all_chars (PyStr.is_not ":") a = true ->
  PyStr.all_chars (PyStr.is_not ":") b = true ->
  PyStr.strip t = t -> PyStr.strip a = a -> PyStr.strip b = b ->
  PyStr.contains "|" line && PyStr.contains "=" line = false ->
  PyStr.strip line = line
  /\ forall raw_line,
       PyStr.strip raw_line = line ->
       entry_of_parts <$> parse_txt_playlist [raw_line]
       = [{| track := t; artist := Some a; album := Some b |}].
Proof.
  intros line Ht Ha Hb Htc Hac Hbc Hst Hsa Hsb Hmode.
  assert (parse_line line
          = <["album" := b]> (<["artist" := a]> (<["track" := t]> ∅)))
    as Hparts.
  { unfold parse_line. rewrite Hmode. unfold regex_parts, line.
    rewrite finditer_three_fields by done. cbn [foldl fst snd].
    by rewrite Hst, Hsa, Hsb. }
  assert (PyStr.strip line = line) as Hstrip.
  { unfold PyStr.strip.
    change (PyStr.lstrip line) with line. unfold line.
    repeat (apply rstrip_app_fixed;
            [done || by apply strip_fixed_rstrip|]).
    by apply strip_fixed_rstrip. }
  assert (parse_line line !! "track" = Some t) as Htrack.
  { by rewrite Hparts, lookup_insert_ne, lookup_insert_ne, lookup_insert_eq. }
  split; [done|]. intros raw_line Hraw.
  rewrite (parse_txt_playlist_single raw_line line _ Hraw eq_refl eq_refl)
    by by rewrite Htrack.
  cbn [fmap list_fmap]. f_equal.
  apply entry_of_three_fields; [done|rewrite Hparts..].
  - by rewrite lookup_insert_ne, lookup_insert_eq.
  - by rewrite lookup_insert_eq.
Qed.

Lemma key_value_line_round_trip_witness :
  entry_of_parts
    <$> parse_txt_playlist
          ["  track:In the Cage artist:Genesis album:The Lamb Lies Down On Broadway"
             +:+ String PyStr.newline ""]
  = [{| track := "In the Cage"; artist := Some "Genesis";
        album := Some "The Lamb Lies Down On Broadway" |}].
Proof.
  refine (proj2 (key_value_line_round_trip "In the Cage" "Genesis"
                   "The Lamb Lies Down On Broadway" _ _ _ _ _ _ _ _ _ _)
                _ _);
    reflexivity || discriminate.
Defined.

(** X21. A line [artist=A | album=B | track=C], the other format of the
    docstring, is read back field by field: when the three values hold no
    pipe and have no whitespace at their ends, a file of that line alone,
    with or without whitespace around it, gives the one entry with artist
    A, album B and track C, an empty value included. *)
Theorem pipe_line_round_trip (a b c : string) :
  let line := "artist=" +:+ a +:+ " | album=" +:+ b +:+ " | track=" +:+ c in
  PyStr.all_chars (PyStr.is_not "|") a = true ->
  PyStr.all_chars (PyStr.is_not "|") b = true ->
  PyStr.all_chars (PyStr.is_not "|") c = true ->
  PyStr.strip a = a -> PyStr.strip b = b -> PyStr.strip c = c ->
  PyStr.strip line = line
  /\ forall raw_line,
       PyStr.strip raw_line = line ->
       entry_of_parts <$> parse_txt_playlist [raw_line]
       = [{| track := c; artist := Some a; album := Some b |}].
Proof.
  intros line Ha Hb Hc Hsa Hsb Hsc.
  assert (parse_line line
          = <["track" := c]> (<["album" := b]> (<["artist" := a]> ∅)))
    as Hparts.
  { unfold parse_line.
    assert (PyStr.contains "|" line = true) as ->.
    { unfold line.
      replace ("artist=" +:+ a +:+ " | album=" +:+ b +:+ " | track=" +:+ c)
        with (("artist=" +:+ a +:+ " ")
                +:+ String "|" (" album=" +:+ b +:+ " | track=" +:+ c))
        by (by rewrite !append_assoc).
      apply contains_char_app. }
    assert (PyStr.contains "=" line = true) as -> by reflexivity.
    by apply pipe_parts_three_fields. }
  assert (PyStr.strip line = line) as Hstrip.
  { unfold PyStr.strip.
    change (PyStr.lstrip line) with line. unfold line.
    repeat (apply rstrip_app_fixed;
            [done || by apply strip_fixed_rstrip|]).
    by apply strip_fixed_rstrip. }
  assert (parse_line line !! "track" = Some c) as Htrack.
  { by rewrite Hparts, lookup_insert_eq. }
  split; [done|]. intros raw_line Hraw.
  rewrite (parse_txt_playlist_single raw_line line _ Hraw eq_refl eq_refl)
    by by rewrite Htrack.
  cbn [fmap list_fmap]. f_equal.
  apply entry_of_three_fields; [done|rewrite Hparts..].
  - by rewrite lookup_insert_ne, lookup_insert_ne, lookup_insert_eq.
  - by rewrite lookup_insert_ne, lookup_insert_eq.
Qed.

Lemma pipe_line_round_trip_witness :
  entry_of_parts
    <$> parse_txt_playlist
          ["artist=Genesis | album=The Lamb Lies Down On Broadway | track=In the Cage"
             +:+ String PyStr.newline ""]
  = [{| track := "In the Cage"; artist := Some "Genesis";
        album := Some "The Lamb Lies Down On Broadway" |}].
Proof.
  refine (proj2 (pipe_line_round_trip "Genesis" "The Lamb Lies Down On Broadway"
                   "In the Cage" _ _ _ _ _ _) _ _);
    reflexivity.
Defined.

Section EmptyFieldFacts.
Import PyStr PyStrFacts.

(** With nothing between [artist:] and the next field, the artist field is
    not matched at all. *)
Lemma finditer_empty_artist t b :
  t <> "" -> b <> "" ->
  all_chars (is_not ":") t = true ->
  all_chars (is_not ":") b = true ->
  finditer ("track:" +:+ t +:+ " artist: album:" +:+ b)
  = [("track", t); ("album", b)].
Proof.
  intros Ht Hb Htc Hbc. unfold finditer.
  set (tail1 := " artist: album:" +:+ b).
  assert (value_from tail1 = Some ("", tail1)) as Hv1 by reflexivity.
  assert (value_from "" = Some ("", "")) as Hv3 by reflexivity.
  change ("track:" +:+ t +:+ tail1)
    with (String "t" ("rack:" +:+ t +:+ tail1)).
  rewrite (finditer_from_match "t" ("rack:" +:+ t +:+ tail1) "track" t tail1
             ("rack:" +:+ t)).
  2:{ unfold match_at.
      change (key_at (String "t" ("rack:" +:+ t +:+ tail1)))
        with (Some ("track", t +:+ tail1)).
      cbv beta iota.
      by rewrite (value_match_app t tail1 tail1). }
  2:{ by rewrite append_assoc. }
  f_equal.
  change tail1
    with (String " " (String "a" (String "r" (String "t" (String "i"
           (String "s" (String "t" (String ":" (String " "
           (String "a" ("lbum:" +:+ b))))))))))).
  rewrite !finditer_from_no_match by reflexivity.
  rewrite (finditer_from_match "a" ("lbum:" +:+ b) "album" b ""
             ("lbum:" +:+ b)).
  2:{ unfold match_at.
      change (key_at (String "a" ("lbum:" +:+ b))) with (Some ("album", b)).
      cbv beta iota.
      rewrite <- (append_empty_r b) at 1.
      by rewrite (value_match_app b "" ""). }
  2:{ by rewrite append_empty_r. }
  done.
Qed.

End EmptyFieldFacts.

(** X22. A line [track:T artist: album:B], with nothing after [artist:],
    gives an entry that has no ["artist"] key at all, not one with an empty
    artist. *)
Theorem empty_artist_field_is_missing (t b : string) :
  let line := "track:" +:+ t +:+ " artist: album:" +:+ b in
  t <> "" -> b <> "" ->
  PyStr.all_chars (PyStr.is_not ":") t = true ->
  PyStr.all_chars (PyStr.is_not ":") b = true ->
  PyStr.strip t = t -> PyStr.strip b = b ->
  PyStr.contains "|" line && PyStr.contains "=" line = false ->
  PyStr.strip line = line
  /\ forall raw_line,
       PyStr.strip raw_line = line ->
       entry_of_parts <$> parse_txt_playlist [raw_line]
       = [{| track := t; artist := None; album := Some b |}].
Proof.
  intros line Ht Hb Htc Hbc Hst Hsb Hmode.
  assert (parse_line line = <["album" := b]> (<["track" := t]> ∅)) as Hparts.
  { unfold parse_line. rewrite Hmode. unfold regex_parts, line.
    rewrite finditer_empty_artist by done. cbn [foldl fst snd].
    by rewrite Hst, Hsb. }
  assert (PyStr.strip line = line) as Hstrip.
  { unfold PyStr.strip.
    change (PyStr.lstrip line) with line. unfold line.
    repeat (apply rstrip_app_fixed;
            [done || by apply strip_fixed_rstrip|]).
    by apply strip_fixed_rstrip. }
  assert (parse_line line !! "track" = Some t) as Htrack.
  { by rewrite Hparts, lookup_insert_ne, lookup_insert_eq. }
  split; [done|]. intros raw_line Hraw.
  rewrite (parse_txt_playlist_single raw_line line _ Hraw eq_refl eq_refl)
    by by rewrite Htrack.
  cbn [fmap list_fmap]. f_equal. unfold entry_of_parts.
  rewrite Htrack, Hparts.
  rewrite (lookup_insert_ne _ "album" "artist") by done.
  rewrite (lookup_insert_ne _ "track" "artist") by done.
  by rewrite lookup_empty, lookup_insert_eq.
Qed.

Lemma empty_artist_field_is_missing_witness :
  entry_of_parts
    <$> parse_txt_playlist
          ["track:Layla artist: album:Hits" +:+ String PyStr.newline ""]
  = [{| track := "Layla"; artist := None; album := Some "Hits" |}].
Proof.
  refine (proj2 (empty_artist_field_is_missing "Layla" "Hits" _ _ _ _ _ _ _)
                _ _);
    reflexivity || discriminate.
Defined.
